(** * Slow-extraction analysis routines ([pyLib/optics.py])

    A shallow embedding of the numerical routines of [pyLib/optics.py]:
    the bisection search for the stability boundary, the straight-line
    fit of the separatrix at the septum, the angular sort of the
    boundary of the stable area and the search for the three fixed
    points.

    Numbers.  The Python code computes with float64.  Here floats are
    idealised as exact numbers: rationals ([Q]) in the routines that
    only add, subtract, divide and compare (bisection, septum fit), so
    that these run inside Rocq; real numbers ([R]) in the routines that
    need [sqrt], [exp] and [atan2] (angular sort, fixed points).
    Rounding, infinities and NaN are outside the model, and so are
    Python integers too large for a float (the [OverflowError] of a
    true division).  Where a statement rests on the exactness of the
    arithmetic (that a loop returns, how many passes it makes, that a
    comparison is kept by a change of units) its comment says so.

    Errors.  A Python exception is a value [Raise e] of the type
    [outcome]; a loop that the model runs with a step budget yields
    [OutOfFuel] when the budget is exhausted. *)

From Stdlib Require Import ZArith QArith Qabs Qround Reals Lra Lia Psatz.
From Stdlib Require Import List Permutation Sorted FunctionalExtensionality.
From stdpp Require Import base option list gmap sorting.
Import ListNotations.

(** ** Outcomes of Python computations *)

Inductive exn : Type :=
| IndexError
| ValueError
| TypeError.

Inductive outcome (A : Type) : Type :=
| Ret (a : A)
| Raise (e : exn)
| OutOfFuel.

Arguments Ret {A} a.
Arguments Raise {A} e.
Arguments OutOfFuel {A}.

Definition obind {A B : Type} (m : outcome A) (k : A -> outcome B) : outcome B :=
  match m with
  | Ret a => k a
  | Raise e => Raise e
  | OutOfFuel => OutOfFuel
  end.

Declare Scope py_scope.
Delimit Scope py_scope with py.
Notation "'let!' x ':=' m 'in' k" := (obind m (fun x => k))
  (at level 10, x pattern, m at level 100, k at level 200) : py_scope.

(** ** Turn-by-turn records

    [rec.x] and [rec.px] are two-dimensional arrays, one row per
    tracked particle and one column per turn.  [nc.x_norm] and
    [nc.px_norm] are the same for the normalised coordinates. *)

Record record (F : Type) : Type := mkRecord {
  x : list (list F);
  px : list (list F)
}.
Arguments mkRecord {F} _ _.
Arguments x {F} _.
Arguments px {F} _.

Record nc_record (F : Type) : Type := mkNcRecord {
  x_norm : list (list F);
  px_norm : list (list F)
}.
Arguments mkNcRecord {F} _ _.
Arguments x_norm {F} _.
Arguments px_norm {F} _.

(** [a[0, :]]: the row of the first particle. *)
Definition row0 {F : Type} (a : list (list F)) : outcome (list F) :=
  match a with
  | r :: _ => Ret r
  | [] => Raise IndexError
  end.

(** [a[i]] on a one-dimensional array of length [n], for a Python index
    [i]: a negative index counts from the end, and an index outside
    [-n, n) raises [IndexError]. *)
Definition np_getitem {F : Type} (a : list F) (i : Z) : outcome F :=
  let n := Z.of_nat (length a) in
  if (0 <=? i)%Z then
    match a !! Z.to_nat i with
    | Some v => Ret v
    | None => Raise IndexError
    end
  else if (- n <=? i)%Z then
    match a !! Z.to_nat (n + i) with
    | Some v => Ret v
    | None => Raise IndexError
    end
  else Raise IndexError.

(** [a[idx]] with an integer index array [idx] (fancy indexing). *)
Fixpoint np_take {F : Type} (a : list F) (idx : list nat) : outcome (list F) :=
  match idx with
  | [] => Ret []
  | i :: idx' =>
      match a !! i with
      | Some v => obind (np_take a idx') (fun vs => Ret (v :: vs))
      | None => Raise IndexError
      end
  end.

(** ** The tracking engine

    [myLine] is an object of the external tracking library.  The code
    uses three of its members: [build_particles(x=..., delta=...)],
    [track(p, num_turns=..., turn_by_turn_monitor=True)], which leaves
    its recording in the line, and the attribute [record_last_track].
    The state of the line object is a value of type [L]; the calls are
    taken to return. *)

Class Line (L : Type) : Type := {
  particles : Type;
  build_particles : L -> Q -> Q -> particles;
  track : L -> particles -> nat -> L;
  record_last_track : L -> record Q
}.

(** Strict comparison of rationals as a boolean. *)
Definition Qltb (a b : Q) : bool :=
  match (a ?= b)%Q with
  | Lt => true
  | _ => false
  end.

(** [(a > bound).any()] on a two-dimensional array. *)
Definition any_gt (a : list (list Q)) (bound : Q) : bool :=
  existsb (existsb (fun v => Qltb bound v)) a.

(** ** Boundary bisection search: [closest_stable_unstable] *)

Module Bisection.

Abbreviation loc := positive.

Section WithLine.

Context {L : Type} `{Line L}.

(** The Python store: the list objects, by reference, and the state of
    the line object. *)
Record world : Type := mkWorld {
  heap : gmap loc (list Q);
  line : L
}.

Definition M (A : Type) : Type := world -> outcome (A * world).

Definition ret {A : Type} (a : A) : M A := fun w => Ret (a, w).

Definition bind {A B : Type} (m : M A) (k : A -> M B) : M B :=
  fun w =>
    match m w with
    | Ret (a, w') => k a w'
    | Raise e => Raise e
    | OutOfFuel => OutOfFuel
    end.

Notation "'let*' x ':=' m 'in' k" := (bind m (fun x => k))
  (at level 10, x pattern, m at level 100, k at level 200).

(** [l[i]] for a list object [l].  A reference that the store does
    not bind to a list is not subscriptable. *)
Definition list_get (l : loc) (i : nat) : M Q :=
  fun w =>
    match heap w !! l with
    | Some v =>
        match v !! i with
        | Some q => Ret (q, w)
        | None => Raise IndexError
        end
    | None => Raise TypeError
    end.

(** [l[i] = q]: the list object is updated in place. *)
Definition list_set (l : loc) (i : nat) (q : Q) : M unit :=
  fun w =>
    match heap w !! l with
    | Some v =>
        if decide (i < length v)%nat
        then Ret (tt, mkWorld (<[l := <[i := q]> v]> (heap w)) (line w))
        else Raise IndexError
    | None => Raise TypeError
    end.

(** [p = myLine.build_particles(x=x_test, delta=d_gen)],
    [myLine.track(p, num_turns=num_turns, turn_by_turn_monitor=True)],
    [rec_test = myLine.record_last_track]. *)
Definition track_test (x_test d_gen : Q) (num_turns : nat) : M (record Q) :=
  fun w =>
    let p := build_particles (line w) x_test d_gen in
    let ln := track (line w) p num_turns in
    Ret (record_last_track ln, mkWorld (heap w) ln).

Fixpoint closest_stable_unstable (fuel : nat) (num_turns : nat) (d_gen xBoundary : Q)
    (xSearch : loc) (absPrecisio : Q) : M loc :=
  match fuel with
  | O => fun _ => OutOfFuel
  | S fuel' =>
      let* hi := list_get xSearch 1 in
      let* lo := list_get xSearch 0 in
      if Qltb absPrecisio (hi - lo) then
        let* lo := list_get xSearch 0 in
        let* hi := list_get xSearch 1 in
        let x_test := ((lo + hi) / 2)%Q in
        let* rec_test := track_test x_test d_gen num_turns in
        if any_gt (x rec_test) xBoundary then
          let* _ := list_set xSearch 1 x_test in
          closest_stable_unstable fuel' num_turns d_gen xBoundary xSearch absPrecisio
        else
          let* _ := list_set xSearch 0 x_test in
          closest_stable_unstable fuel' num_turns d_gen xBoundary xSearch absPrecisio
      else ret xSearch
  end.

(** One pass of the loop body on the two bounds and the line, and its
    iteration. *)
Definition bisect_step (num_turns : nat) (d_gen xBoundary : Q) (s : Q * Q * L) : Q * Q * L :=
  let '(lo, hi, ln) := s in
  let x_test := ((lo + hi) / 2)%Q in
  let ln' := track ln (build_particles ln x_test d_gen) num_turns in
  if any_gt (x (record_last_track ln')) xBoundary
  then (lo, x_test, ln')
  else (x_test, hi, ln').

Fixpoint bisect_iter (k : nat) (num_turns : nat) (d_gen xBoundary : Q) (s : Q * Q * L) : Q * Q * L :=
  match k with
  | O => s
  | S k' => bisect_iter k' num_turns d_gen xBoundary (bisect_step num_turns d_gen xBoundary s)
  end.

Definition width (s : Q * Q * L) : Q := (snd (fst s) - fst (fst s))%Q.

End WithLine.

Arguments world L : clear implicits.
Arguments M L A : clear implicits.

(** A synthetic line: the particle stays where it was built, so the
    recording of [num_turns] turns repeats the initial position, and
    the line keeps the last recording as its state. *)
Definition frozen_line : Type := record Q.

#[export] Instance frozen_Line : Line frozen_line := {|
  particles := Q * Q;
  build_particles := fun _ x0 delta => (x0, delta);
  track := fun _ p n => mkRecord [repeat (fst p) n] [repeat 0%Q n];
  record_last_track := fun ln => ln
|}.

(** The store of a caller that holds the list [[0, 1]] and a line that
    has not tracked anything yet. *)
Definition caller_store : world frozen_line :=
  mkWorld {[ 1%positive := [0%Q; 1%Q] ]} (mkRecord [] []).

End Bisection.

(** ** Septum crossing fit: [separatrix_at_septum] *)

Module Septum.

Local Open Scope Q_scope.

(** [np.argmin]: the index of the first occurrence of the minimum;
    an empty array raises [ValueError]. *)
Fixpoint argmin_from (best : Q) (ibest i : nat) (a : list Q) : nat :=
  match a with
  | [] => ibest
  | v :: a' =>
      if Qltb v best then argmin_from v i (S i) a'
      else argmin_from best ibest (S i) a'
  end.

Definition np_argmin (a : list Q) : outcome nat :=
  match a with
  | [] => Raise ValueError
  | v :: a' => Ret (argmin_from v 0 1 a')
  end.

(** [np.polyfit([x1, x2], [y1, y2], deg=1)]: the least-squares line of
    two points, as the list of its coefficients, highest degree first.
    With distinct abscissae it is the line through the two points.
    With equal abscissae the system has rank one: numpy warns and
    returns the least-squares solution of minimum norm in its
    column-scaled unknowns, which is the value below for [x1] not zero
    (at [x1 = 0] numpy divides by a zero column scale; the value below
    then follows the convention [q / 0 = 0] of [Q]). *)
Definition np_polyfit_deg1 (x1 x2 y1 y2 : Q) : list Q :=
  if Qeq_bool x1 x2
  then [(y1 + y2) / (4 * x1); (y1 + y2) / 4]
  else
    let a := (y1 - y2) / (x1 - x2) in
    [a; y1 - a * x1].

(** [np.polyval(p, x)]: Horner evaluation, highest degree first. *)
Definition np_polyval (p : list Q) (x0 : Q) : Q :=
  fold_left (fun acc c => acc * x0 + c) p 0.

Record separatrix_results : Type := mkSeparatrixResults {
  slope : Q;
  px_at_septum : Q;
  closer_turn : nat;
  poly_sep : list Q
}.

Definition separatrix_at_septum (rec_sep : record Q) (xBoundary : Q)
    : outcome separatrix_results :=
  (let! x_separ := row0 (x rec_sep) in
   let! px_separ := row0 (px rec_sep) in
   let! i_septum := np_argmin (map (fun v => Qabs (v - xBoundary)) x_separ) in
   let i := Z.of_nat i_septum in
   let! xa := np_getitem x_separ (i + 3) in
   let! xb := np_getitem x_separ (i - 3) in
   let! pa := np_getitem px_separ (i + 3) in
   let! pb := np_getitem px_separ (i - 3) in
   let poly := np_polyfit_deg1 xa xb pa pb in
   let! slope := np_getitem poly 0 in
   Ret (mkSeparatrixResults slope (np_polyval poly xBoundary) i_septum poly))%py.

Definition short_line_record : record Q := mkRecord [[0; 1; 2]] [[1; 3; 5]].
Definition parabola_record : record Q :=
  mkRecord [[0; 1; 2; 3; 4; 5; 6]] [[0; 1; 4; 9; 16; 25; 36]].

End Septum.

(** ** Real and complex arithmetic of numpy *)

Definition Rltb (a b : R) : bool := if Rlt_dec a b then true else false.

Record complex : Type := mkC { re : R; im : R }.

Module Cplx.

Local Open Scope R_scope.

Definition Csub (z w : complex) : complex := mkC (re z - re w) (im z - im w).
Definition Cmul (z w : complex) : complex :=
  mkC (re z * re w - im z * im w) (re z * im w + im z * re w).

(** [np.abs] of a complex number. *)
Definition Cabs (z : complex) : R := sqrt (re z * re z + im z * im z).

(** [np.exp] of a complex number. *)
Definition Cexp (z : complex) : complex :=
  mkC (exp (re z) * cos (im z)) (exp (re z) * sin (im z)).

(** [np.arctan2(y, x)], with values in (-pi, pi]. *)
Definition np_arctan2 (y0 x0 : R) : R :=
  if Rlt_dec 0 x0 then atan (y0 / x0)
  else if Rlt_dec x0 0 then
    (if Rle_dec 0 y0 then atan (y0 / x0) + PI else atan (y0 / x0) - PI)
  else if Rlt_dec 0 y0 then PI / 2
  else if Rlt_dec y0 0 then - (PI / 2)
  else 0.

(** [np.angle] of a complex number. *)
Definition np_angle (z : complex) : R := np_arctan2 (im z) (re z).

End Cplx.

(** [a + 1j * b] on two one-dimensional arrays, with numpy's
    broadcasting: equal lengths combine pointwise, an array of length
    one is stretched, any other pair of lengths raises [ValueError]. *)
Definition np_complex (a b : list R) : outcome (list complex) :=
  if (length a =? length b)%nat then Ret (zip_with mkC a b)
  else
    match a, b with
    | [a0], _ => Ret (map (fun v => mkC a0 v) b)
    | _, [b0] => Ret (map (fun v => mkC v b0) a)
    | _, _ => Raise ValueError
    end.

(** ** numpy's default argsort

    [np.argsort(a)] without a [kind] argument runs numpy's
    [quicksort] kind, which numpy documents as not stable.  What every
    implementation of it guarantees is the contract [is_argsort]: the
    result is a permutation of the indices that puts the keys in
    non-decreasing order.  [sort_stable_boundary_coordinates] below
    takes the implementation as a parameter; [reference_argsort] is an
    implementation that meets the contract on every input.

    [NumpySort.aquicksort] is the scalar code of that kind (numpy's
    [npysort/quicksort], the argsort variant): an introsort that
    partitions around the median of three while a segment spans more
    than 16 slots, sorts shorter segments by insertion, and keeps the
    pending segments on an explicit stack.  Keys are only compared, so
    the model takes the comparison [lt i j], standing for
    [v[i] < v[j]].  The heapsort that numpy falls back to when the
    recursion depth is used up is not modelled: the model then stops
    with no result, as it does when its step budget is exhausted. *)

Definition is_argsort (v : list R) (idx : list nat) : Prop :=
  Permutation idx (seq 0 (length v)) /\
  Sorted Rle (map (fun i => nth i v 0%R) idx).

(** A reference implementation of the contract, defined on every
    input: merge sort of the indices by their keys. *)
#[export] Instance key_le_dec (v : list R) :
  RelDecision (fun i j : nat => (nth i v 0 <= nth j v 0)%R) :=
  fun i j => Rle_dec (nth i v 0%R) (nth j v 0%R).

Definition reference_argsort (v : list R) : outcome (list nat) :=
  Ret (merge_sort (fun i j : nat => (nth i v 0 <= nth j v 0)%R) (seq 0 (length v))).

Module NumpySort.

Local Open Scope Z_scope.

Section Introsort.

Variable lt : nat -> nat -> bool.

Definition SMALL_QUICKSORT : Z := 16.

(** [*p] and [*p = v] for a pointer [p] into the index array. *)
Definition rd (a : list nat) (p : Z) : nat := nth (Z.to_nat p) a 0%nat.
Definition wr (a : list nat) (p : Z) (v : nat) : list nat := <[Z.to_nat p := v]> a.
Definition INTP_SWAP (a : list nat) (p q : Z) : list nat :=
  wr (wr a p (rd a q)) q (rd a p).

(** [do { ++pi; } while (v[*pi] < vp);] with [vp = v[ip]]. *)
Fixpoint scan_up (fuel : nat) (a : list nat) (pi : Z) (ip : nat) : option Z :=
  match fuel with
  | O => None
  | S fuel' =>
      let pi' := pi + 1 in
      if lt (rd a pi') ip then scan_up fuel' a pi' ip else Some pi'
  end.

(** [do { --pj; } while (vp < v[*pj]);] *)
Fixpoint scan_down (fuel : nat) (a : list nat) (pj : Z) (ip : nat) : option Z :=
  match fuel with
  | O => None
  | S fuel' =>
      let pj' := pj - 1 in
      if lt ip (rd a pj') then scan_down fuel' a pj' ip else Some pj'
  end.

(** The [for (;;)] loop of the partition: returns the array and [pi]. *)
Fixpoint partition_loop (fuel : nat) (a : list nat) (pi pj : Z) (ip : nat)
    : option (list nat * Z) :=
  match fuel with
  | O => None
  | S fuel' =>
      match scan_up (S (length a)) a pi ip with
      | None => None
      | Some pi' =>
          match scan_down (S (length a)) a pj ip with
          | None => None
          | Some pj' =>
              if pj' <=? pi' then Some (a, pi')
              else partition_loop fuel' (INTP_SWAP a pi' pj') pi' pj' ip
          end
      end
  end.

(** One partition of the segment [pl..pr]: median of three, pivot
    parked at [pr - 1], scan, pivot moved to its slot [pi]. *)
Definition partition (a : list nat) (pl pr : Z) : option (list nat * Z) :=
  let pm := pl + Z.shiftr (pr - pl) 1 in
  let a := if lt (rd a pm) (rd a pl) then INTP_SWAP a pm pl else a in
  let a := if lt (rd a pr) (rd a pm) then INTP_SWAP a pr pm else a in
  let a := if lt (rd a pm) (rd a pl) then INTP_SWAP a pm pl else a in
  let ip := rd a pm in
  let pi := pl in
  let pj := pr - 1 in
  let a := INTP_SWAP a pm pj in
  match partition_loop (S (length a)) a pi pj ip with
  | None => None
  | Some (a, pi) =>
      let pk := pr - 1 in
      Some (INTP_SWAP a pi pk, pi)
  end.

Definition frame : Type := Z * Z * Z.

(** [while ((pr - pl) > SMALL_QUICKSORT)]: partition, push the larger
    part with the decremented depth, go on with the smaller part. *)
Fixpoint partition_phase (fuel : nat) (a : list nat) (pl pr : Z)
    (stack : list frame) (cdepth : Z)
    : option (list nat * Z * Z * list frame * Z) :=
  match fuel with
  | O => None
  | S fuel' =>
      if SMALL_QUICKSORT <? pr - pl then
        match partition a pl pr with
        | None => None
        | Some (a, pi) =>
            let cdepth := cdepth - 1 in
            if pi - pl <? pr - pi
            then partition_phase fuel' a pl (pi - 1) ((pi + 1, pr, cdepth) :: stack) cdepth
            else partition_phase fuel' a (pi + 1) pr ((pl, pi - 1, cdepth) :: stack) cdepth
        end
      else Some (a, pl, pr, stack, cdepth)
  end.

(** The inner [while] of the insertion sort: shift the larger entries
    one slot up and drop [vi] into the hole. *)
Fixpoint insert_down (fuel : nat) (a : list nat) (pl pj : Z) (vi : nat)
    : option (list nat) :=
  match fuel with
  | O => None
  | S fuel' =>
      let pk := pj - 1 in
      if (pl <? pj) && lt vi (rd a pk)
      then insert_down fuel' (wr a pj (rd a pk)) pl pk vi
      else Some (wr a pj vi)
  end.

(** [for (pi = pl + 1; pi <= pr; ++pi)] of the insertion sort. *)
Fixpoint insertion_sort (fuel : nat) (a : list nat) (pl pi pr : Z) : option (list nat) :=
  match fuel with
  | O => None
  | S fuel' =>
      if pi <=? pr then
        match insert_down (S (length a)) a pl pi (rd a pi) with
        | None => None
        | Some a => insertion_sort fuel' a pl (pi + 1) pr
        end
      else Some a
  end.

(** The outer [while (1)]. *)
Fixpoint sort_loop (fuel : nat) (a : list nat) (pl pr : Z)
    (stack : list frame) (cdepth : Z) : option (list nat) :=
  match fuel with
  | O => None
  | S fuel' =>
      if cdepth <? 0 then None
      else
        match partition_phase (S (length a)) a pl pr stack cdepth with
        | None => None
        | Some (a, pl, pr, stack, _) =>
            match insertion_sort (S (length a)) a pl (pl + 1) pr with
            | None => None
            | Some a =>
                match stack with
                | [] => Some a
                | (pl, pr, cdepth) :: stack => sort_loop fuel' a pl pr stack cdepth
                end
            end
        end
  end.

(** [aquicksort(v, tosort, num)] on [tosort = 0, 1, ..., num - 1]. *)
Definition aquicksort (num : nat) : option (list nat) :=
  let n := Z.of_nat num in
  sort_loop (S num) (seq 0 num) 0 (n - 1) [] (Z.log2 n * 2).

End Introsort.

(** [np.argsort(v)] on that code path. *)
Definition np_argsort (v : list R) : outcome (list nat) :=
  match aquicksort (fun i j => Rltb (nth i v 0%R) (nth j v 0%R)) (length v) with
  | Some idx => Ret idx
  | None => OutOfFuel
  end.

End NumpySort.

(** ** Boundary point angular sort: [sort_stable_boundary_coordinates] *)

Module AngularSort.

Import Cplx.

Record sorted_coordinates : Type := mkSorted {
  x_triang : list R;
  px_triang : list R;
  x_norm_triang : list R;
  px_norm_triang : list R
}.

(** [theta_triang] of line 237, for rows of equal length. *)
Definition angles (x_norm_row px_norm_row : list R) : list R :=
  map np_angle (zip_with mkC x_norm_row px_norm_row).

Section WithArgsort.

Variable np_argsort : list R -> outcome (list nat).

Definition sort_stable_boundary_coordinates (tbt_triang : record R)
    (nc_tbt_triang : nc_record R) : outcome sorted_coordinates :=
  (let! x_triang := row0 (x tbt_triang) in
   let! px_triang := row0 (px tbt_triang) in
   let! x_norm_triang := row0 (x_norm nc_tbt_triang) in
   let! px_norm_triang := row0 (px_norm nc_tbt_triang) in
   let! z := np_complex x_norm_triang px_norm_triang in
   let theta_triang := map np_angle z in
   let! i_sorted := np_argsort theta_triang in
   let! sx := np_take x_triang i_sorted in
   let! spx := np_take px_triang i_sorted in
   let! sxn := np_take x_norm_triang i_sorted in
   let! spxn := np_take px_norm_triang i_sorted in
   Ret (mkSorted sx spx sxn spxn))%py.

End WithArgsort.

(** Test records.  Three boundary samples at the angles pi, 0 and
    pi/2; the same samples in the order of their angles; and eighteen
    samples on the positive horizontal axis, which all have angle 0. *)
Definition three_tbt : record R := mkRecord [[10; 20; 30]%R] [[1; 2; 3]%R].
Definition three_nc : nc_record R := mkNcRecord [[-1; 1; 0]%R] [[0; 0; 1]%R].
Definition ordered_nc : nc_record R := mkNcRecord [[1; 0; -1]%R] [[0; 1; 0]%R].
Definition axis_row : list R :=
  [1; 2; 3; 4; 5; 6; 7; 8; 9; 10; 11; 12; 13; 14; 15; 16; 17; 18]%R.
Definition axis_tbt : record R := mkRecord [axis_row] [repeat 0%R 18].
Definition axis_nc : nc_record R := mkNcRecord [axis_row] [repeat 0%R 18].

End AngularSort.

(** ** Fixed-point localisation: [find_fixed_points] *)

Module FixedPoints.

Import Cplx.

Local Open Scope R_scope.

(** [np.argmax]: the index of the first occurrence of the maximum;
    an empty array raises [ValueError]. *)
Fixpoint argmax_from (best : R) (ibest i : nat) (a : list R) : nat :=
  match a with
  | [] => ibest
  | v :: a' =>
      if Rltb best v then argmax_from v i (S i) a'
      else argmax_from best ibest (S i) a'
  end.

Definition np_argmax (a : list R) : outcome nat :=
  match a with
  | [] => Raise ValueError
  | v :: a' => Ret (argmax_from v 0 1 a')
  end.

(** [r * m] for a float [r] and a boolean [m]. *)
Definition mul_mask (r : R) (m : bool) : R := if m then r else 0.

(** [1j * 2 / 3 * np.pi] and [-1j * 2 / 3 * np.pi]. *)
Definition plus_120 : complex := mkC 0 (2 / 3 * PI).
Definition minus_120 : complex := mkC 0 (- 2 / 3 * PI).

(** The mask of lines 286 and 289: the samples closer than
    [threshold * r_fp1] to [z_fp1] turned by [turn]. *)
Definition search_mask (z_triang_norm : list complex) (z_fp1 : complex)
    (turn : complex) (threshold : R) : list bool :=
  map (fun z => Rltb (Cabs (Csub z (Cmul z_fp1 (Cexp turn)))) (threshold * Cabs z_fp1))
      z_triang_norm.

Record fixed_points : Type := mkFixedPoints {
  x_norm_fp : list R;
  px_norm_fp : list R;
  x_fp : list R;
  px_fp : list R
}.

Definition find_fixed_points (tbt_triang : record R) (nc_tbt_triang : nc_record R)
    (threshold : R) : outcome fixed_points :=
  (let! x_norm_row := row0 (x_norm nc_tbt_triang) in
   let! px_norm_row := row0 (px_norm nc_tbt_triang) in
   let! z_triang_norm := np_complex x_norm_row px_norm_row in
   let! x_row := row0 (x tbt_triang) in
   let! px_row := row0 (px tbt_triang) in
   let! z_triang := np_complex x_row px_row in
   let r_triang_norm := map Cabs z_triang_norm in
   let! i_fp1 := np_argmax r_triang_norm in
   let! z_fp1 := np_getitem z_triang_norm (Z.of_nat i_fp1) in
   let mask_fp2 := search_mask z_triang_norm z_fp1 plus_120 threshold in
   let! i_fp2 := np_argmax (zip_with mul_mask r_triang_norm mask_fp2) in
   let mask_fp3 := search_mask z_triang_norm z_fp1 minus_120 threshold in
   let! i_fp3 := np_argmax (zip_with mul_mask r_triang_norm mask_fp3) in
   let! zn := np_take z_triang_norm [i_fp1; i_fp2; i_fp3] in
   let! zn' := np_take z_triang_norm [i_fp1; i_fp2; i_fp3] in
   let! zp := np_take z_triang [i_fp1; i_fp2; i_fp3] in
   let! zp' := np_take z_triang [i_fp1; i_fp2; i_fp3] in
   Ret (mkFixedPoints (map re zn) (map im zn') (map re zp) (map im zp')))%py.


Definition lonely_tbt : record R := mkRecord [[5; 6]] [[50; 60]].
Definition lonely_nc : nc_record R := mkNcRecord [[1; 1 / 2]] [[0; 0]].

End FixedPoints.

(** ** Separatrix recorder and inner-edge tracker:
    [record_separatrix], [find_boundary_stable] *)

Module Recorder.

Import Bisection.

Section WithLine.

Context {L : Type} `{Line L}.

(** [p = myLine.build_particles(x=xSearch[1], delta=d_gen)], then
    [track] and [record_last_track], as in the bisection. *)
Definition record_separatrix (xSearch : loc) (num_turns : nat) (d_gen : Q)
    : M L (record Q) :=
  bind (list_get xSearch 1) (fun x_max => track_test x_max d_gen num_turns).

(** The same from the inner edge [xSearch[0]]. *)
Definition find_boundary_stable (xSearch : loc) (num_turns : nat) (d_gen : Q)
    : M L (record Q) :=
  bind (list_get xSearch 0) (fun x_min => track_test x_min d_gen num_turns).

End WithLine.

(** A test store whose list has one entry only. *)
Definition one_entry_store : world frozen_line :=
  mkWorld {[ 1%positive := [0%Q] ]} (mkRecord [] []).

End Recorder.

(** ** Data drawn by [plot_phase_space]

    The calls of matplotlib are effects outside this development.  What
    is modelled is the data that the function computes for them: the
    three strands of the separatrix (lines 383 to 392) and the segment
    of the fitted line (lines 395 and 396). *)

Module PhaseSpacePlot.

Record curve (F : Type) : Type := mkCurve {
  xdata : list F;
  ydata : list F
}.
Arguments mkCurve {F} _ _.
Arguments xdata {F} _.
Arguments ydata {F} _.

(** [rec_sep.state > 0]. *)
Definition alive_mask (state : list (list Z)) : list (list bool) :=
  map (map (fun st => (0 <? st)%Z)) state.

(** The entries of one row that the mask selects. *)
Fixpoint select_row {F : Type} (r : list F) (m : list bool) : list F :=
  match r, m with
  | v :: r', b :: m' => if b then v :: select_row r' m' else select_row r' m'
  | _, _ => []
  end.

(** [a[mask]] for a two-dimensional array and a boolean mask: the
    selected entries in row-major order, as a one-dimensional array; a
    mask of another shape raises [IndexError]. *)
Fixpoint np_boolean_mask {F : Type} (a : list (list F)) (mask : list (list bool))
    : outcome (list F) :=
  match a, mask with
  | [], [] => Ret []
  | r :: a', m :: mask' =>
      if (length r =? length m)%nat
      then obind (np_boolean_mask a' mask') (fun rest => Ret (select_row r m ++ rest))
      else Raise IndexError
  | _, _ => Raise IndexError
  end.

(** [l[start::step]] for a positive [step]: [wait] entries are skipped
    before the next one is taken. *)
Fixpoint slice_countdown {F : Type} (step wait : nat) (l : list F) : list F :=
  match l with
  | [] => []
  | v :: l' =>
      match wait with
      | O => v :: slice_countdown step (step - 1) l'
      | S wait' => slice_countdown step wait' l'
      end
  end.

Definition np_slice_from {F : Type} (start step : nat) (l : list F) : list F :=
  slice_countdown step start l.

(** The data of the two [plot] calls of one pass of [for ii in
    range(3)]: the strand in physical and in normalised coordinates. *)
Definition strand_pair {F : Type} (mask_alive : list (list bool))
    (rec_sep : record F) (nc_sep : nc_record F) (ii : nat)
    : outcome (curve F * curve F) :=
  (let! gx := np_boolean_mask (x rec_sep) mask_alive in
   let! gpx := np_boolean_mask (px rec_sep) mask_alive in
   let! nx := np_boolean_mask (x_norm nc_sep) mask_alive in
   let! npx := np_boolean_mask (px_norm nc_sep) mask_alive in
   Ret (mkCurve (np_slice_from ii 3 gx) (np_slice_from ii 3 gpx),
        mkCurve (np_slice_from ii 3 nx) (np_slice_from ii 3 npx)))%py.

Fixpoint strands_for {F : Type} (mask_alive : list (list bool))
    (rec_sep : record F) (nc_sep : nc_record F) (range : list nat)
    : outcome (list (curve F * curve F)) :=
  match range with
  | [] => Ret []
  | ii :: range' =>
      obind (strand_pair mask_alive rec_sep nc_sep ii) (fun c =>
      obind (strands_for mask_alive rec_sep nc_sep range') (fun cs =>
      Ret (c :: cs)))
  end.

(** Lines 383 to 392, with [state] standing for [rec_sep.state]. *)
Definition separatrix_strands {F : Type} (state : list (list Z))
    (rec_sep : record F) (nc_sep : nc_record F)
    : outcome (list (curve F * curve F)) :=
  let mask_alive := alive_mask state in
  strands_for mask_alive rec_sep nc_sep (seq 0 3).

(** Lines 395 and 396: [x_plt] and [np.polyval(poly_sep, x_plt)]. *)
Definition septum_segment (poly_sep : list Q) (xBoundary : Q) : curve Q :=
  let x_plt := [xBoundary - (1 # 100); xBoundary + (1 # 100)]%Q in
  mkCurve x_plt (map (Septum.np_polyval poly_sep) x_plt).

(** Test data: eight turns of which the third and the sixth are lost. *)
Definition eight_state : list (list Z) := [[1; 1; 0; 1; 1; -1; 1; 1]%Z].
Definition eight_rec : record Q :=
  mkRecord [[0; 1; 2; 3; 4; 5; 6; 7]%Q] [[10; 11; 12; 13; 14; 15; 16; 17]%Q].
Definition eight_nc : nc_record Q :=
  mkNcRecord [[20; 21; 22; 23; 24; 25; 26; 27]%Q] [[30; 31; 32; 33; 34; 35; 36; 37]%Q].

End PhaseSpacePlot.

(** ** More test records *)

Module MoreRecords.

(** Physical rows with one turn more, and with one turn less, than the
    three turns of [AngularSort.three_nc]; three samples sorted by
    angle of which the first two share the angle 0. *)
Definition long_tbt : record R := mkRecord [[10; 20; 30; 40]%R] [[1; 2; 3; 4]%R].
Definition short_tbt : record R := mkRecord [[10; 20]%R] [[1; 2]%R].
Definition tie_nc : nc_record R := mkNcRecord [[1; 2; 0]%R] [[0; 0; 1]%R].

(** A record with no turn, and a particle at rest at the origin of the
    normalised phase space. *)
Definition empty_tbt : record R := mkRecord [[]] [[]].
Definition empty_nc : nc_record R := mkNcRecord [[]] [[]].
Definition origin_nc : nc_record R := mkNcRecord [[0; 0]%R] [[0; 0]%R].

(** The normalised coordinates in other units: every entry times [s]. *)
Definition scale_nc (s : R) (nc : nc_record R) : nc_record R :=
  mkNcRecord (map (map (Rmult s)) (x_norm nc)) (map (map (Rmult s)) (px_norm nc)).

Definition Cscale (s : R) (z : complex) : complex := mkC (s * re z) (s * im z).

End MoreRecords.

(** * Properties *)

(** ** Rational comparisons *)

Lemma Qltb_true (a b : Q) : Qltb a b = true <-> (a < b)%Q.
Proof.
  unfold Qltb. rewrite Qlt_alt. destruct (a ?= b)%Q; split; congruence.
Qed.

Lemma Qltb_false (a b : Q) : Qltb a b = false <-> (b <= a)%Q.
Proof.
  split; intros Hab.
  - apply Qnot_lt_le. intros Hlt. apply Qltb_true in Hlt. congruence.
  - destruct (Qltb a b) eqn:E; [|reflexivity].
    apply Qltb_true in E. exfalso. apply (Qlt_not_le _ _ E Hab).
Qed.

Lemma any_gt_true (a : list (list Q)) (bound : Q) :
  any_gt a bound = true <->
  exists row v, In row a /\ In v row /\ (bound < v)%Q.
Proof.
  unfold any_gt. rewrite existsb_exists. split.
  - intros (row & Hrow & Hex). apply existsb_exists in Hex as (v & Hv & Hlt).
    exists row, v. rewrite <- Qltb_true. auto.
  - intros (row & v & Hrow & Hv & Hlt). exists row. split; [assumption|].
    apply existsb_exists. exists v. rewrite Qltb_true. auto.
Qed.

(** ** Bisection *)

Section BisectionFacts.

Import Bisection.

Context {L : Type} `{Line L}.

Variables (num_turns : nat) (d_gen xBoundary : Q) (xSearch : loc) (absPrecisio : Q).

Local Abbreviation run fuel := (closest_stable_unstable fuel num_turns d_gen xBoundary xSearch absPrecisio).
Local Abbreviation step := (bisect_step num_turns d_gen xBoundary).
Local Abbreviation iter k := (bisect_iter k num_turns d_gen xBoundary).

(** The loop stops as soon as the width is within the precision, and
    leaves the store as it is. *)
Lemma loop_exit (fuel : nat) (w : world L) (lo hi : Q) (rest : list Q) :
  heap w !! xSearch = Some (lo :: hi :: rest) ->
  Qltb absPrecisio (hi - lo) = false ->
  run (S fuel) w = Ret (xSearch, w).
Proof.
  intros Hh Hstop. cbn [closest_stable_unstable]. unfold bind, list_get.
  repeat (rewrite Hh; cbn [lookup list_lookup]).
  rewrite Hstop. reflexivity.
Qed.

(** Otherwise one pass of the body replaces one bound by the midpoint,
    in place, and leaves the new recording in the line. *)
Lemma loop_pass (fuel : nat) (w : world L) (lo hi : Q) (rest : list Q) :
  heap w !! xSearch = Some (lo :: hi :: rest) ->
  Qltb absPrecisio (hi - lo) = true ->
  run (S fuel) w =
  run fuel (mkWorld (<[xSearch := fst (fst (step (lo, hi, line w)))
                                  :: snd (fst (step (lo, hi, line w))) :: rest]> (heap w))
                    (snd (step (lo, hi, line w)))).
Proof.
  intros Hh Hgo. cbn [closest_stable_unstable]. unfold bind, list_get.
  repeat (rewrite Hh; cbn [lookup list_lookup]).
  rewrite Hgo.
  repeat (rewrite Hh; cbn [lookup list_lookup]).
  unfold track_test, bisect_step.
  destruct (any_gt _ xBoundary) eqn:Hany; unfold list_set; cbn [heap line fst snd];
    rewrite Hh; (destruct (decide _) as [_|Hn]; [reflexivity|]);
    exfalso; apply Hn; cbn; lia.
Qed.

Lemma step_eta (s : Q * Q * L) :
  step s = (fst (fst (step s)), snd (fst (step s)), snd (step s)).
Proof. destruct (step s) as [[a b] c]. reflexivity. Qed.

Lemma width_step (s : Q * Q * L) : (width (step s) == width s / 2)%Q.
Proof.
  destruct s as [[lo hi] ln]. unfold bisect_step, width.
  destruct (any_gt _ _); cbn [fst snd]; field.
Qed.

Lemma width_iter (k : nat) :
  forall s : Q * Q * L, (width (iter k s) * inject_Z (2 ^ Z.of_nat k) == width s)%Q.
Proof.
  induction k as [|k IH]; intros s.
  - cbn [bisect_iter]. change (inject_Z (2 ^ Z.of_nat 0)) with 1%Q. ring.
  - cbn [bisect_iter]. rewrite Nat2Z.inj_succ, Z.pow_succ_r by lia.
    rewrite inject_Z_mult.
    transitivity (width (iter k (step s)) * inject_Z (2 ^ Z.of_nat k) * 2)%Q.
    + change (inject_Z 2) with 2%Q. ring.
    + rewrite IH, width_step. field.
Qed.

(** The loop run for the [k] passes after which the width is first
    within the precision. *)
Lemma bisection_run (k : nat) :
  forall (fuel : nat) (w : world L) (lo hi : Q) (rest : list Q),
    heap w !! xSearch = Some (lo :: hi :: rest) ->
    (k < fuel)%nat ->
    (forall j, (j < k)%nat -> (absPrecisio < width (iter j (lo, hi, line w)))%Q) ->
    (width (iter k (lo, hi, line w)) <= absPrecisio)%Q ->
    run fuel w =
    Ret (xSearch,
         mkWorld (<[xSearch := fst (fst (iter k (lo, hi, line w)))
                               :: snd (fst (iter k (lo, hi, line w))) :: rest]> (heap w))
                 (snd (iter k (lo, hi, line w)))).
Proof.
  induction k as [|k IH]; intros fuel w lo hi rest Hh Hfuel Hbefore Hlast.
  - destruct fuel as [|fuel]; [lia|].
    rewrite (loop_exit fuel w lo hi rest Hh) by (apply Qltb_false; exact Hlast).
    cbn [bisect_iter fst snd]. destruct w as [h ln]. cbn [heap line] in *.
    rewrite insert_id by exact Hh. reflexivity.
  - destruct fuel as [|fuel]; [lia|].
    assert (Hgo : Qltb absPrecisio (hi - lo) = true).
    { apply Qltb_true. apply (Hbefore 0%nat). lia. }
    rewrite (loop_pass fuel w lo hi rest Hh Hgo).
    rewrite (IH fuel _ (fst (fst (step (lo, hi, line w))))
                (snd (fst (step (lo, hi, line w)))) rest).
    + cbn [heap line]. rewrite <- step_eta. cbn [bisect_iter].
      rewrite insert_insert_eq. reflexivity.
    + cbn [heap]. apply lookup_insert_eq.
    + lia.
    + intros j Hj. cbn [line]. rewrite <- step_eta.
      apply (Hbefore (S j)). lia.
    + cbn [line]. rewrite <- step_eta. exact Hlast.
Qed.

Lemma pow2_bound (wd : Q) :
  (0 < absPrecisio)%Q ->
  exists n : nat, (wd <= absPrecisio * inject_Z (2 ^ Z.of_nat n))%Q.
Proof.
  intros Hprec.
  exists (Z.to_nat (Qceiling (wd / absPrecisio))).
  set (c := Qceiling (wd / absPrecisio)).
  assert (Hc : (wd / absPrecisio <= inject_Z c)%Q) by apply Qle_ceiling.
  assert (Hpow : (c <= 2 ^ Z.of_nat (Z.to_nat c))%Z).
  { destruct (Z_lt_le_dec c 0) as [Hneg|Hpos].
    - pose proof (Z.pow_nonneg 2 (Z.of_nat (Z.to_nat c))). lia.
    - rewrite Z2Nat.id by lia.
      pose proof (Z.pow_gt_lin_r 2 c). lia. }
  assert (Hq : (inject_Z c <= inject_Z (2 ^ Z.of_nat (Z.to_nat c)))%Q).
  { rewrite <- Zle_Qle. exact Hpow. }
  assert (Hwd : (wd == wd / absPrecisio * absPrecisio)%Q).
  { field. intros Hz. rewrite Hz in Hprec. apply (Qlt_irrefl _ Hprec). }
  rewrite Hwd at 1. rewrite (Qmult_comm absPrecisio).
  apply Qmult_le_compat_r; [|apply Qlt_le_weak; exact Hprec].
  apply (Qle_trans _ _ _ Hc Hq).
Qed.

Lemma first_within (n : nat) :
  forall s : Q * Q * L,
    (width (iter n s) <= absPrecisio)%Q ->
    exists k : nat,
      (k <= n)%nat /\
      (width (iter k s) <= absPrecisio)%Q /\
      (forall j, (j < k)%nat -> (absPrecisio < width (iter j s))%Q).
Proof.
  induction n as [|n IH]; intros s Hn.
  - exists 0%nat. split; [lia|]. split; [exact Hn|]. intros j Hj. lia.
  - destruct (Qlt_le_dec absPrecisio (width s)) as [Hgt|Hle].
    + destruct (IH (step s) Hn) as (k & Hk & Hw & Hbefore).
      exists (S k). split; [lia|]. split; [exact Hw|].
      intros [|j] Hj; [exact Hgt|]. apply Hbefore. lia.
    + exists 0%nat. split; [lia|]. split; [exact Hle|]. intros j Hj. lia.
Qed.

(** With a positive precision the loop ends after finitely many
    passes, whatever the tracker answers. *)
Lemma passes_exist (s : Q * Q * L) :
  (0 < absPrecisio)%Q ->
  exists k : nat,
    (width (iter k s) <= absPrecisio)%Q /\
    (forall j, (j < k)%nat -> (absPrecisio < width (iter j s))%Q).
Proof.
  intros Hprec.
  destruct (pow2_bound (width s) Hprec) as (n & Hn).
  destruct (first_within n s) as (k & _ & Hw & Hbefore).
  - assert (Hpos : (0 < inject_Z (2 ^ Z.of_nat n))%Q).
    { change 0%Q with (inject_Z 0). rewrite <- Zlt_Qlt. apply Z.pow_pos_nonneg; lia. }
    apply Qmult_le_r with (z := inject_Z (2 ^ Z.of_nat n)); [exact Hpos|].
    rewrite width_iter. exact Hn.
  - exists k. auto.
Qed.

Lemma iter_succ (k : nat) :
  forall s : Q * Q * L, iter (S k) s = step (iter k s).
Proof.
  induction k as [|k IH]; intros s; [reflexivity|].
  change (iter (S (S k)) s) with (iter (S k) (step s)). rewrite IH. reflexivity.
Qed.

(** A pass keeps one bound and puts the midpoint in the place of the
    other. *)
Lemma step_replaces_endpoint (s : Q * Q * L) :
  let lo := fst (fst s) in
  let hi := snd (fst s) in
  (fst (fst (step s)) = lo /\ snd (fst (step s)) = ((lo + hi) / 2)%Q) \/
  (fst (fst (step s)) = ((lo + hi) / 2)%Q /\ snd (fst (step s)) = hi).
Proof.
  destruct s as [[lo hi] ln]. unfold bisect_step. cbn [fst snd].
  destruct (any_gt _ _); cbn [fst snd]; auto.
Qed.

(** The run of the whole function from a store in which [xSearch] is
    a list that starts with the two bounds. *)
Lemma bisection_result (w : world L) (lo hi : Q) (rest : list Q) :
  heap w !! xSearch = Some (lo :: hi :: rest) ->
  (0 < absPrecisio)%Q ->
  exists k : nat,
    (width (iter k (lo, hi, line w)) <= absPrecisio)%Q /\
    (forall j, (j < k)%nat -> (absPrecisio < width (iter j (lo, hi, line w)))%Q) /\
    forall fuel, (k < fuel)%nat ->
      run fuel w =
      Ret (xSearch,
           mkWorld (<[xSearch := fst (fst (iter k (lo, hi, line w)))
                                 :: snd (fst (iter k (lo, hi, line w))) :: rest]> (heap w))
                   (snd (iter k (lo, hi, line w)))).
Proof.
  intros Hh Hprec.
  destruct (passes_exist (lo, hi, line w) Hprec) as (k & Hlast & Hbefore).
  exists k. split; [exact Hlast|]. split; [exact Hbefore|].
  intros fuel Hfuel. apply bisection_run; assumption.
Qed.

(** C8.  For an interval with lower bound at most the upper bound and
    a positive precision the bisection loop terminates, whatever the
    tracker answers: there is a number [k] of passes such that every
    step budget above [k] gives a result; each pass keeps one bound and
    replaces the other by the midpoint, so the width after [k] passes
    is the initial width divided by [2 ^ k], and it is at most the
    precision. *)
Theorem bisection_terminates (w : world L) (lo hi : Q) (rest : list Q) :
  heap w !! xSearch = Some (lo :: hi :: rest) ->
  (lo <= hi)%Q ->
  (0 < absPrecisio)%Q ->
  exists k : nat,
    (forall j, (j < k)%nat ->
       let s := iter j (lo, hi, line w) in
       let s' := iter (S j) (lo, hi, line w) in
       ((fst (fst s') = fst (fst s) /\
         snd (fst s') = ((fst (fst s) + snd (fst s)) / 2)%Q) \/
        (fst (fst s') = ((fst (fst s) + snd (fst s)) / 2)%Q /\
         snd (fst s') = snd (fst s))) /\
       (width s' == width s / 2)%Q) /\
    forall fuel, (k < fuel)%nat ->
      exists (lo' hi' : Q) (ln' : L),
        run fuel w = Ret (xSearch, mkWorld (<[xSearch := lo' :: hi' :: rest]> (heap w)) ln') /\
        ((hi' - lo') * inject_Z (2 ^ Z.of_nat k) == hi - lo)%Q /\
        (0 <= hi' - lo' <= absPrecisio)%Q.
Proof.
  intros Hh Hle Hprec.
  destruct (bisection_result w lo hi rest Hh Hprec) as (k & Hlast & _ & Hrun).
  exists k. split.
  - intros j _ s s'. subst s s'. rewrite iter_succ. split.
    + apply step_replaces_endpoint.
    + apply width_step.
  - intros fuel Hfuel.
    exists (fst (fst (iter k (lo, hi, line w)))), (snd (fst (iter k (lo, hi, line w)))),
           (snd (iter k (lo, hi, line w))).
    split; [apply Hrun; exact Hfuel|].
    pose proof (width_iter k (lo, hi, line w)) as Hw.
    unfold width in Hw, Hlast. cbn [fst snd] in Hw.
    split; [exact Hw|]. split; [|exact Hlast].
    assert (Hpos : (0 < inject_Z (2 ^ Z.of_nat k))%Q).
    { change 0%Q with (inject_Z 0). rewrite <- Zlt_Qlt. apply Z.pow_pos_nonneg; lia. }
    apply Qmult_le_r with (z := inject_Z (2 ^ Z.of_nat k)); [exact Hpos|].
    rewrite Hw, Qmult_0_l. rewrite <- (Qplus_opp_r lo).
    apply Qplus_le_compat; [exact Hle | apply Qle_refl].
Qed.

(** The bracket [lo <= b <= hi] is kept by every pass when the tracker
    calls every position below [b] stable and every position above [b]
    unstable. *)
Lemma bracket_kept (b : Q) :
  (forall (ln : L) (x0 : Q), (x0 < b)%Q ->
     any_gt (x (record_last_track (track ln (build_particles ln x0 d_gen) num_turns)))
            xBoundary = false) ->
  (forall (ln : L) (x0 : Q), (b < x0)%Q ->
     any_gt (x (record_last_track (track ln (build_particles ln x0 d_gen) num_turns)))
            xBoundary = true) ->
  forall (k : nat) (s : Q * Q * L),
    (fst (fst s) <= b <= snd (fst s))%Q ->
    (fst (fst (iter k s)) <= b <= snd (fst (iter k s)))%Q.
Proof.
  intros Hstable Hunstable. induction k as [|k IH]; intros s Hs; [exact Hs|].
  cbn [bisect_iter]. apply IH.
  destruct s as [[lo hi] ln]. cbn [fst snd] in Hs. destruct Hs as [Hlo Hhi].
  unfold bisect_step.
  destruct (any_gt _ _) eqn:Hany; cbn [fst snd].
  - split; [exact Hlo|].
    destruct (Qlt_le_dec ((lo + hi) / 2) b) as [Hlt|Hge]; [|exact Hge].
    rewrite (Hstable ln _ Hlt) in Hany. discriminate.
  - split; [|exact Hhi].
    destruct (Qlt_le_dec b ((lo + hi) / 2)) as [Hlt|Hge]; [|exact Hge].
    rewrite (Hunstable ln _ Hlt) in Hany. discriminate.
Qed.

(** C1, as the code has it, over exact arithmetic.  With a tracker
    whose stability boundary is the constant [b] (every start below [b]
    is classified stable, every start above [b] unstable, the
    classification being "some recorded position exceeds [xBoundary]"),
    an initial interval with [lo <= b <= hi] and a positive precision,
    the function returns the list it was given, holding bounds
    [lo' <= b <= hi'] with [hi' - lo' <= absPrecisio].  The bounds are
    those reached by iterating the pass [bisect_step]: midpoint
    particle, upper bound replaced when unstable, lower bound when
    stable.  That the function returns for every positive precision is
    a fact of exact arithmetic: the width is halved exactly by every
    pass.  With rounded numbers a precision below the spacing of the
    numbers around [b] is never reached. *)
Theorem bisection_brackets_boundary (b : Q) (w : world L) (lo hi : Q) (rest : list Q) :
  (forall (ln : L) (x0 : Q), (x0 < b)%Q ->
     any_gt (x (record_last_track (track ln (build_particles ln x0 d_gen) num_turns)))
            xBoundary = false) ->
  (forall (ln : L) (x0 : Q), (b < x0)%Q ->
     any_gt (x (record_last_track (track ln (build_particles ln x0 d_gen) num_turns)))
            xBoundary = true) ->
  heap w !! xSearch = Some (lo :: hi :: rest) ->
  (lo <= b <= hi)%Q ->
  (0 < absPrecisio)%Q ->
  exists k : nat, forall fuel, (k < fuel)%nat ->
    exists (lo' hi' : Q) (w' : world L),
      run fuel w = Ret (xSearch, w') /\
      heap w' !! xSearch = Some (lo' :: hi' :: rest) /\
      (lo', hi') = fst (iter k (lo, hi, line w)) /\
      (lo' <= b <= hi')%Q /\
      (hi' - lo' <= absPrecisio)%Q.
Proof.
  intros Hstable Hunstable Hh Hb Hprec.
  destruct (bisection_result w lo hi rest Hh Hprec) as (k & Hlast & _ & Hrun).
  exists k. intros fuel Hfuel.
  eexists _, _, _. split; [apply Hrun; exact Hfuel|].
  split; [cbn [heap]; apply lookup_insert_eq|].
  split; [destruct (iter k (lo, hi, line w)) as [[a c] d]; reflexivity|].
  split; [|exact Hlast].
  apply (bracket_kept b Hstable Hunstable k (lo, hi, line w)). exact Hb.
Qed.

(** C9, as the code has it.  The function returns the reference it was
    given; the list behind it is updated in place and holds the final
    bounds; every other list of the store is left as it was and no
    list is allocated.  The line
    object is not left as it was: every pass runs [track] on it, so
    after at least one pass it holds the recording of the last
    midpoint particle.  With no pass at all the whole store is
    unchanged. *)
Theorem xSearch_updated_in_place (w : world L) (lo hi : Q) (rest : list Q) :
  heap w !! xSearch = Some (lo :: hi :: rest) ->
  (0 < absPrecisio)%Q ->
  exists k : nat, forall fuel, (k < fuel)%nat ->
    exists (lo' hi' : Q) (w' : world L),
      run fuel w = Ret (xSearch, w') /\
      heap w' !! xSearch = Some (lo' :: hi' :: rest) /\
      (forall l : loc, l <> xSearch -> heap w' !! l = heap w !! l) /\
      dom (heap w') = dom (heap w) /\
      line w' = snd (iter k (lo, hi, line w)) /\
      ((hi - lo <= absPrecisio)%Q -> w' = w) /\
      ((absPrecisio < hi - lo)%Q ->
         exists (ln : L) (x_test : Q),
           line w' = track ln (build_particles ln x_test d_gen) num_turns).
Proof.
  intros Hh Hprec.
  destruct (bisection_result w lo hi rest Hh Hprec) as (k & Hlast & Hbefore & Hrun).
  exists k. intros fuel Hfuel.
  eexists _, _, _. split; [apply Hrun; exact Hfuel|].
  cbn [heap line].
  split; [apply lookup_insert_eq|].
  split; [intros l Hl; apply lookup_insert_ne; congruence|].
  split; [apply dom_insert_lookup_L; rewrite Hh; eauto|].
  split; [reflexivity|]. split.
  - intros Hsmall. destruct k as [|k].
    + cbn [bisect_iter fst snd]. destruct w as [h ln]. cbn [heap line] in *.
      rewrite insert_id by exact Hh. reflexivity.
    + exfalso. apply (Qlt_not_le _ _ (Hbefore 0%nat ltac:(lia))). exact Hsmall.
  - intros Hlarge. destruct k as [|k].
    + exfalso. apply (Qlt_not_le _ _ Hlarge). exact Hlast.
    + rewrite iter_succ.
      destruct (iter k (lo, hi, line w)) as [[a c] ln] eqn:Hiter.
      exists ln, ((a + c) / 2)%Q. unfold bisect_step.
      destruct (any_gt _ _); reflexivity.
Qed.


End BisectionFacts.

(** *** The frozen line as a test tracker *)

Section FrozenLine.

Import Bisection.

(** With at least one recorded turn, the frozen line calls a start
    position unstable exactly when it exceeds [xBoundary]: its
    stability boundary is [xBoundary] itself. *)
Lemma frozen_unstable_iff (ln : frozen_line) (x0 d_gen xBoundary : Q) (n : nat) :
  any_gt (x (record_last_track (track ln (build_particles ln x0 d_gen) (S n)))) xBoundary = true
  <-> (xBoundary < x0)%Q.
Proof.
  cbn [record_last_track track build_particles frozen_Line x fst].
  rewrite any_gt_true. split.
  - intros (row & v & Hrow & Hv & Hlt).
    destruct Hrow as [<-|[]]. apply repeat_spec in Hv. subst v. exact Hlt.
  - intros Hlt. exists (repeat x0 (S n)), x0.
    split; [left; reflexivity|]. split; [left; reflexivity|exact Hlt].
Qed.

(** C1, counterexample.  Boundary [b = 1/2] strictly inside [[0, 1]],
    precision [1/4]: the first midpoint is [b] itself, it is classified
    stable and becomes the lower bound, and the function returns
    [[1/2, 3/4]]: the lower bound is not below [b]. *)
Lemma bisection_strict_bracket_fails :
  (forall (ln : frozen_line) (x0 : Q),
     any_gt (x (record_last_track (track ln (build_particles ln x0 0%Q) 1))) (1 # 2) = true
     <-> (1 # 2 < x0)%Q) /\
  (0 < 1 # 2 < 1)%Q /\
  exists (lo' hi' : Q) (w' : world frozen_line),
    closest_stable_unstable 3 1 0%Q (1 # 2) 1%positive (1 # 4) caller_store
      = Ret (1%positive, w') /\
    heap w' !! 1%positive = Some [lo'; hi'] /\
    (lo', hi') = (1 # 2, 3 # 4) /\
    ~ (lo' < 1 # 2 < hi')%Q.
Proof.
  split; [intros ln x0; apply frozen_unstable_iff|].
  split; [split; reflexivity|].
  eexists _, _, _. split; [vm_compute; reflexivity|].
  split; [vm_compute; reflexivity|].
  split; [reflexivity|].
  intros [Hlo _]. exact (Qlt_irrefl _ Hlo).
Qed.

(** C9, counterexample.  One pass on [[0, 1]] with precision [1/2]
    leaves the recording of the midpoint particle in the line object,
    which held no recording before. *)
Lemma line_object_is_modified :
  exists w' : world frozen_line,
    closest_stable_unstable 2 1 0%Q (35 # 1000) 1%positive (1 # 2) caller_store
      = Ret (1%positive, w') /\
    line caller_store = mkRecord [] [] /\
    line w' = mkRecord [[1 # 2]] [[0%Q]] /\
    line w' <> line caller_store.
Proof.
  eexists. split; [vm_compute; reflexivity|].
  split; [reflexivity|]. split; [reflexivity|]. discriminate.
Qed.

(** The end-to-end scenario of the specification: a tracker that calls
    a particle unstable whenever [x > 0.035] (the frozen line, 1000
    turns), search interval [[0, 1]], precision 1e-6. *)
Lemma bisection_terminates_witness :
  exists k : nat, forall fuel, (k < fuel)%nat ->
    exists (lo' hi' : Q) (ln' : frozen_line),
      closest_stable_unstable fuel 1000 0%Q (35 # 1000) 1%positive (1 # 1000000) caller_store
        = Ret (1%positive, mkWorld (<[1%positive := [lo'; hi']]> (heap caller_store)) ln') /\
      ((hi' - lo') * inject_Z (2 ^ Z.of_nat k) == 1 - 0)%Q /\
      (0 <= hi' - lo' <= 1 # 1000000)%Q.
Proof.
  destruct (bisection_terminates 1000 0%Q (35 # 1000) 1%positive (1 # 1000000)
              caller_store 0%Q 1%Q [])
    as (k & _ & Hk); [reflexivity | discriminate | reflexivity |].
  exists k. exact Hk.
Defined.

(** The same scenario brackets the boundary 0.035. *)
Lemma bisection_brackets_boundary_witness :
  exists k : nat, forall fuel, (k < fuel)%nat ->
    exists (lo' hi' : Q) (w' : world frozen_line),
      closest_stable_unstable fuel 1000 0%Q (35 # 1000) 1%positive (1 # 1000000) caller_store
        = Ret (1%positive, w') /\
      heap w' !! 1%positive = Some [lo'; hi'] /\
      (lo' <= 35 # 1000 <= hi')%Q /\
      (hi' - lo' <= 1 # 1000000)%Q.
Proof.
  destruct (bisection_brackets_boundary 1000 0%Q (35 # 1000) 1%positive (1 # 1000000)
              (35 # 1000) caller_store 0%Q 1%Q [])
    as (k & Hk).
  - intros ln x0 Hlt.
    destruct (any_gt _ _) eqn:Hany; [|reflexivity].
    apply (frozen_unstable_iff ln x0 0%Q (35 # 1000) 999) in Hany.
    exfalso. exact (Qlt_irrefl _ (Qlt_trans _ _ _ Hany Hlt)).
  - intros ln x0 Hlt. apply (frozen_unstable_iff ln x0 0%Q (35 # 1000) 999). exact Hlt.
  - reflexivity.
  - split; discriminate.
  - reflexivity.
  - exists k. intros fuel Hfuel.
    destruct (Hk fuel Hfuel) as (lo' & hi' & w' & Hrun & Hheap & _ & Hb & Hw).
    exists lo', hi', w'. auto.
Defined.

(** In the same scenario the caller's list holds the final bounds and
    the line holds the recording of the last midpoint. *)
Lemma xSearch_updated_in_place_witness :
  exists k : nat, forall fuel, (k < fuel)%nat ->
    exists (lo' hi' : Q) (w' : world frozen_line),
      closest_stable_unstable fuel 1000 0%Q (35 # 1000) 1%positive (1 # 1000000) caller_store
        = Ret (1%positive, w') /\
      heap w' !! 1%positive = Some [lo'; hi'] /\
      (forall l : loc, l <> 1%positive -> heap w' !! l = heap caller_store !! l) /\
      exists (ln : frozen_line) (x_test : Q),
        line w' = track ln (build_particles ln x_test 0%Q) 1000.
Proof.
  destruct (xSearch_updated_in_place 1000 0%Q (35 # 1000) 1%positive (1 # 1000000)
              caller_store 0%Q 1%Q [])
    as (k & Hk); [reflexivity | reflexivity |].
  exists k. intros fuel Hfuel.
  destruct (Hk fuel Hfuel) as (lo' & hi' & w' & Hrun & Hheap & Hframe & _ & _ & _ & Hline).
  exists lo', hi', w'. repeat split; auto.
  apply Hline. reflexivity.
Defined.

End FrozenLine.

(** ** Indexing *)

Lemma np_getitem_nonneg {F : Type} (a : list F) (i : nat) :
  np_getitem a (Z.of_nat i) =
  match a !! i with
  | Some v => Ret v
  | None => Raise IndexError
  end.
Proof.
  unfold np_getitem.
  destruct (Z.leb_spec 0 (Z.of_nat i)) as [_|Hneg]; [|lia].
  rewrite Nat2Z.id. reflexivity.
Qed.

(** A negative index [- k] with [k] at most the length reads the slot
    [length a - k]. *)
Lemma np_getitem_wrap {F : Type} (a : list F) (i : Z) :
  (- Z.of_nat (length a) <= i < 0)%Z ->
  np_getitem a i =
  match a !! Z.to_nat (Z.of_nat (length a) + i) with
  | Some v => Ret v
  | None => Raise IndexError
  end.
Proof.
  intros [Hlo Hhi]. unfold np_getitem.
  destruct (Z.leb_spec 0 i) as [Hpos|_]; [lia|].
  destruct (Z.leb_spec (- Z.of_nat (length a)) i) as [_|Hout]; [reflexivity|lia].
Qed.

Lemma np_getitem_out_of_range {F : Type} (a : list F) (i : Z) :
  (Z.of_nat (length a) <= i \/ i < - Z.of_nat (length a))%Z ->
  np_getitem a i = Raise IndexError.
Proof.
  intros Hout. unfold np_getitem.
  destruct (Z.leb_spec 0 i) as [Hpos|Hneg].
  - rewrite lookup_ge_None_2; [reflexivity|]. lia.
  - destruct (Z.leb_spec (- Z.of_nat (length a)) i) as [Hin|_]; [lia|reflexivity].
Qed.

Lemma np_getitem_in_range {F : Type} (a : list F) (i : Z) :
  (- Z.of_nat (length a) <= i < Z.of_nat (length a))%Z ->
  exists v, np_getitem a i = Ret v /\
            a !! Z.to_nat (i mod Z.of_nat (length a)) = Some v.
Proof.
  intros [Hlo Hhi].
  destruct (Z_lt_le_dec i 0) as [Hneg|Hpos].
  - rewrite np_getitem_wrap by lia.
    replace (i mod Z.of_nat (length a))%Z with (Z.of_nat (length a) + i)%Z.
    + destruct (lookup_lt_is_Some_2 a (Z.to_nat (Z.of_nat (length a) + i))) as [v Hv]; [lia|].
      exists v. rewrite Hv. auto.
    + apply Z.mod_unique with (q := (-1)%Z); lia.
  - generalize (np_getitem_nonneg a (Z.to_nat i)). rewrite Z2Nat.id by lia. intros ->.
    rewrite Z.mod_small by lia.
    destruct (lookup_lt_is_Some_2 a (Z.to_nat i)) as [v Hv]; [lia|].
    exists v. rewrite Hv. auto.
Qed.

(** ** Septum fit *)

Section SeptumFacts.

Import Septum.

Local Open Scope Q_scope.

Lemma argmin_from_spec (a : list Q) :
  forall (p : list Q) (best : Q) (ibest : nat),
    p !! ibest = Some best ->
    Forall (Qle best) p ->
    (forall j u, (j < ibest)%nat -> p !! j = Some u -> best < u) ->
    exists m,
      (p ++ a) !! argmin_from best ibest (length p) a = Some m /\
      Forall (Qle m) (p ++ a) /\
      (forall j u, (j < argmin_from best ibest (length p) a)%nat ->
                   (p ++ a) !! j = Some u -> m < u).
Proof.
  induction a as [|v a IH]; intros p best ibest Hbest Hmin Hfirst.
  - cbn [argmin_from]. rewrite app_nil_r. exists best. auto.
  - cbn [argmin_from].
    replace (p ++ v :: a) with ((p ++ [v]) ++ a) by (rewrite <- app_assoc; reflexivity).
    replace (S (length p)) with (length (p ++ [v])) by (rewrite length_app; cbn; lia).
    destruct (Qltb v best) eqn:Hlt.
    + apply Qltb_true in Hlt.
      apply (IH (p ++ [v]) v (length p)).
      * rewrite lookup_app_r by lia. rewrite Nat.sub_diag. reflexivity.
      * apply Forall_app. split.
        -- eapply Forall_impl; [exact Hmin|]. intros u Hu. cbn beta in Hu.
           apply Qlt_le_weak. eapply Qlt_le_trans; eassumption.
        -- constructor; [apply Qle_refl|constructor].
      * intros j u Hj Hu.
        rewrite lookup_app_l in Hu by lia.
        rewrite Forall_lookup in Hmin. specialize (Hmin j u Hu). cbn beta in Hmin.
        eapply Qlt_le_trans; eassumption.
    + apply Qltb_false in Hlt.
      apply IH.
      * rewrite lookup_app_l; [exact Hbest|]. apply lookup_lt_Some in Hbest. exact Hbest.
      * apply Forall_app. split; [exact Hmin|]. constructor; [exact Hlt|constructor].
      * intros j u Hj Hu. apply (Hfirst j u Hj).
        rewrite lookup_app_l in Hu; [exact Hu|].
        apply lookup_lt_Some in Hbest. lia.
Qed.

(** [np.argmin] returns the first index at which the array is
    smallest. *)
Lemma np_argmin_spec (a : list Q) (i : nat) :
  np_argmin a = Ret i ->
  exists m,
    a !! i = Some m /\
    Forall (Qle m) a /\
    (forall j u, (j < i)%nat -> a !! j = Some u -> m < u).
Proof.
  destruct a as [|v a]; [discriminate|]. cbn [np_argmin]. intros [= <-].
  apply (argmin_from_spec a [v] v 0%nat).
  - reflexivity.
  - constructor; [apply Qle_refl|constructor].
  - intros j u Hj. lia.
Qed.

Lemma np_argmin_lt_length (a : list Q) (i : nat) :
  np_argmin a = Ret i -> (i < length a)%nat.
Proof.
  intros Hi. destruct (np_argmin_spec a i Hi) as (m & Hm & _).
  apply lookup_lt_Some in Hm. exact Hm.
Qed.

(** The body of the function once the two rows and the closest turn
    are known. *)
Lemma separatrix_at_septum_unfold (rec_sep : record Q) (xBoundary : Q)
    (xs pxs : list Q) (i : nat) :
  row0 (x rec_sep) = Ret xs ->
  row0 (px rec_sep) = Ret pxs ->
  np_argmin (map (fun v => Qabs (v - xBoundary)) xs) = Ret i ->
  separatrix_at_septum rec_sep xBoundary =
  (let! xa := np_getitem xs (Z.of_nat i + 3) in
   let! xb := np_getitem xs (Z.of_nat i - 3) in
   let! pa := np_getitem pxs (Z.of_nat i + 3) in
   let! pb := np_getitem pxs (Z.of_nat i - 3) in
   let poly := np_polyfit_deg1 xa xb pa pb in
   let! slope := np_getitem poly 0 in
   Ret (mkSeparatrixResults slope (np_polyval poly xBoundary) i poly))%py.
Proof.
  intros Hx Hpx Hi. unfold separatrix_at_septum.
  rewrite Hx, Hpx. cbn [obind]. rewrite Hi. reflexivity.
Qed.

(** The fit always has two coefficients, and the slope is the first. *)
Lemma np_polyfit_deg1_shape (x1 x2 y1 y2 : Q) :
  exists a b, np_polyfit_deg1 x1 x2 y1 y2 = [a; b].
Proof.
  unfold np_polyfit_deg1. destruct (Qeq_bool x1 x2); eauto.
Qed.

Lemma np_polyval_deg1 (a b x0 : Q) : np_polyval [a; b] x0 == a * x0 + b.
Proof. unfold np_polyval. cbn [fold_left]. ring. Qed.




(** The function raises [IndexError] exactly when the closest turn
    has no sample three turns after it.  A closest turn with fewer than
    three turns before it gives no [IndexError]: the index [i - 3] is
    negative and reads from the end of the record. *)
Theorem septum_fit_index_error (rec_sep : record Q) (xBoundary : Q)
    (xs pxs : list Q) (i : nat) :
  row0 (x rec_sep) = Ret xs ->
  row0 (px rec_sep) = Ret pxs ->
  length pxs = length xs ->
  np_argmin (map (fun v => Qabs (v - xBoundary)) xs) = Ret i ->
  separatrix_at_septum rec_sep xBoundary = Raise IndexError
  <-> (length xs <= i + 3)%nat.
Proof.
  intros Hx Hpx Hlen Hi.
  pose proof (np_argmin_lt_length _ _ Hi) as Hilt. rewrite length_map in Hilt.
  rewrite (separatrix_at_septum_unfold rec_sep xBoundary xs pxs i Hx Hpx Hi).
  assert (Hok : (i + 3 < length xs)%nat ->
                exists res, (let! xa := np_getitem xs (Z.of_nat i + 3) in
                             let! xb := np_getitem xs (Z.of_nat i - 3) in
                             let! pa := np_getitem pxs (Z.of_nat i + 3) in
                             let! pb := np_getitem pxs (Z.of_nat i - 3) in
                             let poly := np_polyfit_deg1 xa xb pa pb in
                             let! slope := np_getitem poly 0 in
                             Ret (mkSeparatrixResults slope (np_polyval poly xBoundary) i poly))%py
                            = Ret res).
  { intros Hin.
    destruct (np_getitem_in_range xs (Z.of_nat i + 3)) as (xa & -> & _); [lia|].
    destruct (np_getitem_in_range xs (Z.of_nat i - 3)) as (xb & -> & _); [lia|].
    destruct (np_getitem_in_range pxs (Z.of_nat i + 3)) as (pa & -> & _); [lia|].
    destruct (np_getitem_in_range pxs (Z.of_nat i - 3)) as (pb & -> & _); [lia|].
    cbn [obind].
    destruct (np_polyfit_deg1_shape xa xb pa pb) as (a & b & ->).
    eexists. reflexivity. }
  split.
  - intros Herr. destruct (Nat.le_gt_cases (length xs) (i + 3)) as [Hle|Hgt]; [exact Hle|].
    destruct (Hok Hgt) as (res & Hres). rewrite Hres in Herr. discriminate.
  - intros Hle. rewrite (np_getitem_out_of_range xs (Z.of_nat i + 3)) by lia.
    reflexivity.
Qed.

(** C10.  For a record of [n >= 4] turns whose closest turn [i] has
    [i < 3] and [i + 3 <= n - 1], no error is raised: the sample "three
    turns before" is read by the negative index [i - 3], that is from
    slot [n + i - 3], and the line is fitted through the samples of
    slots [i + 3] and [n + i - 3]. *)
Theorem septum_fit_wraps_around (rec_sep : record Q) (xBoundary : Q)
    (xs pxs : list Q) (i : nat) :
  row0 (x rec_sep) = Ret xs ->
  row0 (px rec_sep) = Ret pxs ->
  length pxs = length xs ->
  (4 <= length xs)%nat ->
  np_argmin (map (fun v => Qabs (v - xBoundary)) xs) = Ret i ->
  (i < 3)%nat ->
  (i + 3 <= length xs - 1)%nat ->
  exists (xa xb pa pb slope : Q),
    xs !! (i + 3)%nat = Some xa /\
    xs !! (length xs + i - 3)%nat = Some xb /\
    pxs !! (i + 3)%nat = Some pa /\
    pxs !! (length xs + i - 3)%nat = Some pb /\
    np_getitem (np_polyfit_deg1 xa xb pa pb) 0 = Ret slope /\
    separatrix_at_septum rec_sep xBoundary =
    Ret (mkSeparatrixResults slope
           (np_polyval (np_polyfit_deg1 xa xb pa pb) xBoundary) i
           (np_polyfit_deg1 xa xb pa pb)).
Proof.
  intros Hx Hpx Hlen Hn Hi Hi3 Hafter.
  rewrite (separatrix_at_septum_unfold rec_sep xBoundary xs pxs i Hx Hpx Hi).
  destruct (lookup_lt_is_Some_2 xs (i + 3)) as [xa Hxa]; [lia|].
  destruct (lookup_lt_is_Some_2 xs (length xs + i - 3)) as [xb Hxb]; [lia|].
  destruct (lookup_lt_is_Some_2 pxs (i + 3)) as [pa Hpa]; [lia|].
  destruct (lookup_lt_is_Some_2 pxs (length xs + i - 3)) as [pb Hpb]; [lia|].
  destruct (np_polyfit_deg1_shape xa xb pa pb) as (a & b & Hfit).
  exists xa, xb, pa, pb, a.
  split; [exact Hxa|]. split; [exact Hxb|]. split; [exact Hpa|]. split; [exact Hpb|].
  split; [rewrite Hfit; reflexivity|].
  replace (Z.of_nat i + 3)%Z with (Z.of_nat (i + 3)) by lia.
  rewrite !np_getitem_nonneg, Hxa, Hpa.
  rewrite (np_getitem_wrap xs) by lia. rewrite (np_getitem_wrap pxs) by lia.
  rewrite Hlen.
  replace (Z.to_nat (Z.of_nat (length xs) + (Z.of_nat i - 3))) with (length xs + i - 3)%nat by lia.
  rewrite Hxb, Hpb. cbn [obind]. rewrite Hfit. reflexivity.
Qed.

End SeptumFacts.

(** *** Septum fit on test records *)

Section SeptumTests.

Import Septum.

Local Open Scope Q_scope.


(** C4, the code at the failing input.  Seven turns with [px = x ^ 2]
    and the septum at 0: the closest turn is turn 0, which has no turn
    three before it.  The claim asks for an out-of-range error there.
    The code raises none: the index [0 - 3] is negative and reads turn
    4 from the end of the record, so the line is fitted through turns 3
    and 4, which both come after the closest turn, where the comment at
    the call and the docstring say "the previous and the following
    passage".  The access three turns after the closest turn does what
    the claim says: with the septum at 6 the closest turn is turn 6,
    turn 9 is not recorded, and the function raises [IndexError]. *)
Lemma septum_fit_no_error_near_start :
  np_argmin (map (fun v => Qabs (v - 0)) [0; 1; 2; 3; 4; 5; 6]) = Ret 0%nat /\
  (0 < 3)%nat /\
  np_getitem [0; 1; 2; 3; 4; 5; 6] (0 - 3) = Ret 4 /\
  np_getitem [0; 1; 2; 3; 4; 5; 6] (0 + 3) = Ret 3 /\
  separatrix_at_septum parabola_record 0 = Ret (mkSeparatrixResults 7 (-12) 0 [7; -12]) /\
  separatrix_at_septum parabola_record 0 <> Raise IndexError /\
  np_argmin (map (fun v => Qabs (v - 6)) [0; 1; 2; 3; 4; 5; 6]) = Ret 6%nat /\
  separatrix_at_septum parabola_record 6 = Raise IndexError.
Proof.
  split; [reflexivity|]. split; [lia|]. split; [reflexivity|]. split; [reflexivity|].
  split; [reflexivity|]. split; [discriminate|]. split; reflexivity.
Qed.


(** Seven turns: with the septum at 0 the closest turn is turn 0 and
    turn 3 is recorded; with the septum at 5 the closest turn is turn 5
    and turn 8 is not. *)
Lemma septum_fit_index_error_witness :
  (separatrix_at_septum parabola_record 0 = Raise IndexError <-> (7 <= 0 + 3)%nat) /\
  (separatrix_at_septum parabola_record 5 = Raise IndexError <-> (7 <= 5 + 3)%nat).
Proof.
  split.
  - apply (septum_fit_index_error parabola_record 0
             [0; 1; 2; 3; 4; 5; 6] [0; 1; 4; 9; 16; 25; 36] 0%nat); reflexivity.
  - apply (septum_fit_index_error parabola_record 5
             [0; 1; 2; 3; 4; 5; 6] [0; 1; 4; 9; 16; 25; 36] 5%nat); reflexivity.
Defined.

(** Seven turns, closest turn 0: the fit goes through the slots 3 and
    7 + 0 - 3 = 4. *)
Lemma septum_fit_wraps_around_witness :
  exists (xa xb pa pb slope : Q),
    [0; 1; 2; 3; 4; 5; 6] !! 3%nat = Some xa /\
    [0; 1; 2; 3; 4; 5; 6] !! 4%nat = Some xb /\
    [0; 1; 4; 9; 16; 25; 36] !! 3%nat = Some pa /\
    [0; 1; 4; 9; 16; 25; 36] !! 4%nat = Some pb /\
    np_getitem (np_polyfit_deg1 xa xb pa pb) 0 = Ret slope /\
    separatrix_at_septum parabola_record 0 =
    Ret (mkSeparatrixResults slope
           (np_polyval (np_polyfit_deg1 xa xb pa pb) 0) 0
           (np_polyfit_deg1 xa xb pa pb)).
Proof.
  apply (septum_fit_wraps_around parabola_record 0
           [0; 1; 2; 3; 4; 5; 6] [0; 1; 4; 9; 16; 25; 36] 0%nat);
    try reflexivity; cbn; lia.
Defined.

End SeptumTests.

(** ** Real comparisons and angles *)

Lemma Rltb_true (a b : R) : Rltb a b = true <-> (a < b)%R.
Proof. unfold Rltb. destruct (Rlt_dec a b); split; auto; discriminate. Qed.

Lemma Rltb_false (a b : R) : Rltb a b = false <-> (b <= a)%R.
Proof.
  unfold Rltb. destruct (Rlt_dec a b); split; auto; try discriminate; lra.
Qed.

Lemma np_angle_pos_axis (a : R) : (0 < a)%R -> Cplx.np_angle (mkC a 0) = 0%R.
Proof.
  intros Ha. unfold Cplx.np_angle, Cplx.np_arctan2. cbn [re im].
  destruct (Rlt_dec 0 a); [|lra].
  replace (0 / a)%R with 0%R by (field; lra). apply atan_0.
Qed.

Lemma np_angle_neg_axis (a : R) : (a < 0)%R -> Cplx.np_angle (mkC a 0) = PI.
Proof.
  intros Ha. unfold Cplx.np_angle, Cplx.np_arctan2. cbn [re im].
  destruct (Rlt_dec 0 a); [lra|]. destruct (Rlt_dec a 0); [|lra].
  destruct (Rle_dec 0 0); [|lra].
  replace (0 / a)%R with 0%R by (field; lra). rewrite atan_0. lra.
Qed.

Lemma np_angle_up_axis (b : R) : (0 < b)%R -> Cplx.np_angle (mkC 0 b) = (PI / 2)%R.
Proof.
  intros Hb. unfold Cplx.np_angle, Cplx.np_arctan2. cbn [re im].
  destruct (Rlt_dec 0 0); [lra|]. destruct (Rlt_dec 0 b); [reflexivity|lra].
Qed.

(** ** Fancy indexing *)

Lemma np_take_in_range {F : Type} (d : F) (a : list F) (idx : list nat) :
  Forall (fun i => (i < length a)%nat) idx ->
  np_take a idx = Ret (map (fun i => nth i a d) idx).
Proof.
  induction 1 as [|i idx Hi _ IH]; [reflexivity|].
  cbn [np_take map]. destruct (lookup_lt_is_Some_2 a i Hi) as [v Hv].
  rewrite Hv, IH. cbn [obind].
  rewrite (nth_lookup_Some _ _ d _ Hv). reflexivity.
Qed.

Lemma map_nth_seq {F : Type} (d : F) (a : list F) :
  map (fun i => nth i a d) (seq 0 (length a)) = a.
Proof.
  apply nth_ext with (d := d) (d' := d).
  - rewrite length_map, length_seq. reflexivity.
  - intros n Hn. rewrite length_map, length_seq in Hn.
    rewrite (nth_indep _ _ (nth 0 a d)) by (rewrite length_map, length_seq; exact Hn).
    rewrite (map_nth (fun i => nth i a d)), seq_nth by exact Hn. reflexivity.
Qed.

Lemma permutation_in_range (n : nat) (idx : list nat) :
  Permutation idx (seq 0 n) -> Forall (fun i => (i < n)%nat) idx.
Proof.
  intros Hperm. apply Forall_forall. intros i Hi.
  apply list_elem_of_In in Hi.
  apply (Permutation_in _ Hperm) in Hi. apply in_seq in Hi. lia.
Qed.

(** An array gathered along a permutation of its indices is a
    permutation of the array. *)
Lemma gather_permutation {F : Type} (d : F) (a : list F) (idx : list nat) :
  Permutation idx (seq 0 (length a)) ->
  Permutation (map (fun i => nth i a d) idx) a.
Proof.
  intros Hperm.
  apply Permutation_trans with (map (fun i => nth i a d) (seq 0 (length a))).
  - apply Permutation_map. exact Hperm.
  - rewrite map_nth_seq. reflexivity.
Qed.

(** ** Angular sort *)

Section AngularSortFacts.

Import Cplx AngularSort.

Local Open Scope R_scope.

Variable np_argsort : list R -> outcome (list nat).

Lemma angles_length (xn pxn : list R) :
  length pxn = length xn -> length (angles xn pxn) = length xn.
Proof.
  intros Hlen. unfold angles. rewrite length_map, length_zip_with. lia.
Qed.

Lemma angles_nth (xn pxn : list R) (i : nat) :
  length pxn = length xn ->
  (i < length xn)%nat ->
  nth i (angles xn pxn) 0 = np_angle (mkC (nth i xn 0) (nth i pxn 0)).
Proof.
  intros Hlen Hi.
  destruct (lookup_lt_is_Some_2 xn i Hi) as [a Ha].
  destruct (lookup_lt_is_Some_2 pxn i) as [b Hb]; [lia|].
  rewrite (nth_lookup_Some _ _ 0 _ Ha), (nth_lookup_Some _ _ 0 _ Hb).
  apply nth_lookup_Some. unfold angles.
  rewrite list_lookup_fmap, lookup_zip_with, Ha, Hb. reflexivity.
Qed.

(** The angles of the gathered rows are the gathered angles. *)
Lemma angles_gather (xn pxn : list R) (idx : list nat) :
  length pxn = length xn ->
  Forall (fun i => (i < length xn)%nat) idx ->
  angles (map (fun i => nth i xn 0) idx) (map (fun i => nth i pxn 0) idx)
  = map (fun i => nth i (angles xn pxn) 0) idx.
Proof.
  intros Hlen. induction 1 as [|i idx Hi _ IH]; [reflexivity|].
  unfold angles in *. cbn [map zip_with]. rewrite IH. f_equal.
  symmetry. apply (angles_nth xn pxn i Hlen Hi).
Qed.

(** The function on four rows of one length, once the index array is
    known: every row is gathered along it. *)
Lemma sort_stable_boundary_coordinates_unfold (tbt_triang : record R)
    (nc_tbt_triang : nc_record R) (xs pxs xn pxn : list R) (idx : list nat) :
  row0 (x tbt_triang) = Ret xs ->
  row0 (px tbt_triang) = Ret pxs ->
  row0 (x_norm nc_tbt_triang) = Ret xn ->
  row0 (px_norm nc_tbt_triang) = Ret pxn ->
  length xs = length xn ->
  length pxs = length xn ->
  length pxn = length xn ->
  np_argsort (angles xn pxn) = Ret idx ->
  Permutation idx (seq 0 (length xn)) ->
  sort_stable_boundary_coordinates np_argsort tbt_triang nc_tbt_triang =
  Ret (mkSorted (map (fun i => nth i xs 0) idx) (map (fun i => nth i pxs 0) idx)
                (map (fun i => nth i xn 0) idx) (map (fun i => nth i pxn 0) idx)).
Proof.
  intros Hx Hpx Hxn Hpxn Hlx Hlpx Hlpxn Hsort Hperm.
  pose proof (permutation_in_range _ _ Hperm) as Hrange.
  unfold sort_stable_boundary_coordinates.
  rewrite Hx, Hpx, Hxn, Hpxn. cbn [obind].
  unfold np_complex. rewrite Hlpxn, Nat.eqb_refl. cbn [obind].
  fold (angles xn pxn). rewrite Hsort. cbn [obind].
  rewrite (np_take_in_range 0 xs idx) by (rewrite Hlx; exact Hrange).
  rewrite (np_take_in_range 0 pxs idx) by (rewrite Hlpx; exact Hrange).
  rewrite (np_take_in_range 0 xn idx) by exact Hrange.
  rewrite (np_take_in_range 0 pxn idx) by (rewrite Hlpxn; exact Hrange).
  reflexivity.
Qed.

(** C5.  For a physical and a normalised record of the same
    trajectory (four rows of one length), with an argsort that meets
    numpy's contract on the angles, the function returns four arrays
    whose angle sequence is non-decreasing, each a permutation of the
    corresponding input row; all four are the input rows gathered
    along one permutation of the turns. *)
Theorem angular_sort_is_sorted_permutation (tbt_triang : record R)
    (nc_tbt_triang : nc_record R) (xs pxs xn pxn : list R) :
  row0 (x tbt_triang) = Ret xs ->
  row0 (px tbt_triang) = Ret pxs ->
  row0 (x_norm nc_tbt_triang) = Ret xn ->
  row0 (px_norm nc_tbt_triang) = Ret pxn ->
  length xs = length xn ->
  length pxs = length xn ->
  length pxn = length xn ->
  (exists idx, np_argsort (angles xn pxn) = Ret idx /\ is_argsort (angles xn pxn) idx) ->
  exists (out : sorted_coordinates) (idx : list nat),
    sort_stable_boundary_coordinates np_argsort tbt_triang nc_tbt_triang = Ret out /\
    Sorted Rle (angles (x_norm_triang out) (px_norm_triang out)) /\
    Permutation (x_triang out) xs /\
    Permutation (px_triang out) pxs /\
    Permutation (x_norm_triang out) xn /\
    Permutation (px_norm_triang out) pxn /\
    Permutation idx (seq 0 (length xn)) /\
    out = mkSorted (map (fun i => nth i xs 0) idx) (map (fun i => nth i pxs 0) idx)
                   (map (fun i => nth i xn 0) idx) (map (fun i => nth i pxn 0) idx).
Proof.
  intros Hx Hpx Hxn Hpxn Hlx Hlpx Hlpxn (idx & Hsort & Hperm & Hsorted).
  rewrite angles_length in Hperm by exact Hlpxn.
  eexists _, idx. split.
  { apply (sort_stable_boundary_coordinates_unfold _ _ xs pxs xn pxn idx); assumption. }
  cbn [x_triang px_triang x_norm_triang px_norm_triang].
  split.
  { rewrite angles_gather; [exact Hsorted | exact Hlpxn |].
    apply permutation_in_range. exact Hperm. }
  split; [apply gather_permutation; rewrite Hlx; exact Hperm|].
  split; [apply gather_permutation; rewrite Hlpx; exact Hperm|].
  split; [apply gather_permutation; exact Hperm|].
  split; [apply gather_permutation; rewrite Hlpxn; exact Hperm|].
  split; [exact Hperm|reflexivity].
Qed.

(** The contract can be met on every input. *)
Lemma reference_argsort_meets_contract (v : list R) :
  exists idx, reference_argsort v = Ret idx /\ is_argsort v idx.
Proof.
  eexists. split; [reflexivity|]. split.
  - apply merge_sort_Permutation.
  - assert (Htotal : Total (fun i j : nat => nth i v 0 <= nth j v 0)).
    { intros i j. destruct (Rle_or_lt (nth i v 0) (nth j v 0)); [left|right]; lra. }
    pose proof (Sorted_merge_sort (fun i j : nat => nth i v 0 <= nth j v 0)
                  (seq 0 (length v))) as Hs.
    induction Hs as [|i l _ IH Hhd]; [constructor|].
    cbn [map]. constructor; [exact IH|].
    destruct Hhd; constructor. assumption.
Qed.

(** In a strictly increasing array later entries are larger. *)
Lemma strictly_sorted_nth (v : list R) :
  Sorted Rlt v ->
  forall i j, (i < j)%nat -> (j < length v)%nat -> nth i v 0 < nth j v 0.
Proof.
  intros Hs. apply Sorted.Sorted_StronglySorted in Hs; [|intros a b c; apply Rlt_trans].
  induction Hs as [|a v Hs IH Hall]; intros i j Hij Hj; [cbn in Hj; lia|].
  destruct j as [|j]; [lia|]. cbn [length] in Hj. cbn [nth].
  destruct i as [|i].
  - rewrite List.Forall_forall in Hall. apply Hall. apply nth_In. lia.
  - apply IH; lia.
Qed.

Lemma StronglySorted_by_key (key : nat -> R) (idx : list nat) :
  StronglySorted Rle (map key idx) ->
  StronglySorted (fun i j => key i <= key j) idx.
Proof.
  induction idx as [|i idx IH]; intros Hs; [constructor|].
  cbn [map] in Hs. apply StronglySorted_inv in Hs as [Hs Hall].
  constructor; [apply IH; exact Hs|].
  rewrite List.Forall_map in Hall. exact Hall.
Qed.

Lemma StronglySorted_seq (key : nat -> R) (n : nat) :
  (forall i j, (i < j)%nat -> (j < n)%nat -> key i < key j) ->
  forall a m, (a + m <= n)%nat ->
    StronglySorted (fun i j => key i <= key j) (seq a m).
Proof.
  intros Hmono a m. revert a. induction m as [|m IH]; intros a Ham; [constructor|].
  cbn [seq]. constructor; [apply IH; lia|].
  apply List.Forall_forall. intros j Hj. apply in_seq in Hj.
  apply Rlt_le. apply Hmono; lia.
Qed.

(** On strictly increasing keys the contract leaves one answer: the
    identity. *)
Lemma argsort_of_strictly_sorted (v : list R) (idx : list nat) :
  is_argsort v idx -> Sorted Rlt v -> idx = seq 0 (length v).
Proof.
  intros [Hperm Hsorted] Hstrict.
  pose proof (strictly_sorted_nth v Hstrict) as Hmono.
  apply (StronglySorted_unique_strong (fun i j => nth i v 0 <= nth j v 0)).
  - intros i j Hi Hj Hij Hji.
    apply list_elem_of_In in Hi, Hj.
    apply (Permutation_in _ Hperm) in Hi. apply in_seq in Hi. apply in_seq in Hj.
    destruct (Nat.lt_trichotomy i j) as [Hlt|[Heq|Hgt]]; [|exact Heq|].
    + pose proof (Hmono i j Hlt ltac:(lia)). lra.
    + pose proof (Hmono j i Hgt ltac:(lia)). lra.
  - apply StronglySorted_by_key.
    apply Sorted.Sorted_StronglySorted; [intros a b c; apply Rle_trans|exact Hsorted].
  - apply (StronglySorted_seq _ (length v)); [exact Hmono|lia].
  - exact Hperm.
Qed.

(** C7, as the code has it.  When the angles of the input are strictly
    increasing, the function returns the four input rows unchanged,
    for every argsort that meets numpy's contract.  (With equal angles
    the contract leaves the order of the tied samples open.) *)
Theorem angular_sort_fixes_strictly_sorted (tbt_triang : record R)
    (nc_tbt_triang : nc_record R) (xs pxs xn pxn : list R) :
  row0 (x tbt_triang) = Ret xs ->
  row0 (px tbt_triang) = Ret pxs ->
  row0 (x_norm nc_tbt_triang) = Ret xn ->
  row0 (px_norm nc_tbt_triang) = Ret pxn ->
  length xs = length xn ->
  length pxs = length xn ->
  length pxn = length xn ->
  (exists idx, np_argsort (angles xn pxn) = Ret idx /\ is_argsort (angles xn pxn) idx) ->
  Sorted Rlt (angles xn pxn) ->
  sort_stable_boundary_coordinates np_argsort tbt_triang nc_tbt_triang
  = Ret (mkSorted xs pxs xn pxn).
Proof.
  intros Hx Hpx Hxn Hpxn Hlx Hlpx Hlpxn (idx & Hsort & Hcontract) Hstrict.
  pose proof (argsort_of_strictly_sorted _ _ Hcontract Hstrict) as Hidx.
  rewrite angles_length in Hidx by exact Hlpxn. subst idx.
  rewrite (sort_stable_boundary_coordinates_unfold _ _ xs pxs xn pxn (seq 0 (length xn)))
    by (assumption || reflexivity).
  rewrite <- Hlx at 1. rewrite <- Hlpx at 1. rewrite <- Hlpxn at 2.
  rewrite !map_nth_seq. reflexivity.
Qed.

End AngularSortFacts.

(** *** Angular sort with numpy's quicksort *)

Section AngularSortTests.

Import Cplx AngularSort.

Local Open Scope R_scope.

(** When the comparisons of the keys agree with the comparisons of
    integer ranks, the quicksort can be run on the ranks. *)
Lemma np_argsort_by_rank (v : list R) (rank : nat -> nat) :
  (forall i j, Rltb (nth i v 0) (nth j v 0) = (rank i <? rank j)%nat) ->
  NumpySort.np_argsort v =
  match NumpySort.aquicksort (fun i j => (rank i <? rank j)%nat) (length v) with
  | Some idx => Ret idx
  | None => OutOfFuel
  end.
Proof.
  intros Hext. unfold NumpySort.np_argsort.
  replace (fun i j => Rltb (nth i v 0) (nth j v 0))
    with (fun i j => (rank i <? rank j)%nat); [reflexivity|].
  extensionality i. extensionality j. symmetry. apply Hext.
Qed.

Lemma axis_angles : angles axis_row (repeat 0 18) = repeat 0 18.
Proof.
  unfold angles, axis_row. cbn [repeat zip_with map].
  rewrite !np_angle_pos_axis by lra. reflexivity.
Qed.

(** Eighteen equal keys: the segment is longer than 16 slots, so the
    quicksort partitions it once, and the partition swaps the slots
    1..7 with the slots 15..9. *)
Lemma quicksort_of_equal_keys :
  NumpySort.np_argsort (repeat 0 18)
  = Ret [0; 15; 14; 13; 12; 11; 10; 9; 8; 7; 6; 5; 4; 3; 2; 1; 16; 17]%nat.
Proof.
  rewrite (np_argsort_by_rank _ (fun _ => 0%nat)).
  - assert (Hrun : NumpySort.aquicksort (fun _ _ : nat => (0 <? 0)%nat) 18
                   = Some [0; 15; 14; 13; 12; 11; 10; 9; 8; 7; 6; 5; 4; 3; 2; 1; 16; 17]%nat)
      by (vm_compute; reflexivity).
    cbn [length repeat]. rewrite Hrun. reflexivity.
  - intros i j. apply Rltb_false.
    assert (Hz : forall k, nth k (repeat 0 18) 0 = 0).
    { intros k. destruct (nth_in_or_default k (repeat 0 18) 0) as [Hin|Hd]; [|exact Hd].
      apply repeat_spec in Hin. exact Hin. }
    rewrite !Hz. lra.
Qed.

(** C7, counterexample.  Eighteen samples on the positive horizontal
    axis all have angle 0, so the input is sorted by angle; numpy's
    quicksort meets its contract on it, and the returned rows are not
    the input rows: the samples 1 to 15 come back in reverse order. *)
Lemma angular_sort_reorders_equal_angles :
  Sorted Rle (angles axis_row (repeat 0 18)) /\
  (exists idx,
     NumpySort.np_argsort (angles axis_row (repeat 0 18)) = Ret idx /\
     is_argsort (angles axis_row (repeat 0 18)) idx) /\
  exists out,
    sort_stable_boundary_coordinates NumpySort.np_argsort axis_tbt axis_nc = Ret out /\
    x_norm_triang out
    = [1; 16; 15; 14; 13; 12; 11; 10; 9; 8; 7; 6; 5; 4; 3; 2; 17; 18] /\
    x_norm_triang out <> axis_row.
Proof.
  assert (Hcontract :
    is_argsort (repeat 0 18) [0; 15; 14; 13; 12; 11; 10; 9; 8; 7; 6; 5; 4; 3; 2; 1; 16; 17]%nat).
  { split.
    - apply (bool_decide_unpack _). vm_compute. reflexivity.
    - cbn [map nth repeat]. repeat constructor; lra. }
  rewrite axis_angles. split; [|split].
  - cbn [repeat]. repeat constructor; lra.
  - eexists. split; [apply quicksort_of_equal_keys|exact Hcontract].
  - eexists. split; [|split].
    + rewrite (sort_stable_boundary_coordinates_unfold NumpySort.np_argsort
                 axis_tbt axis_nc axis_row (repeat 0 18) axis_row (repeat 0 18)
                 [0; 15; 14; 13; 12; 11; 10; 9; 8; 7; 6; 5; 4; 3; 2; 1; 16; 17]%nat);
        try reflexivity.
      * rewrite axis_angles. apply quicksort_of_equal_keys.
      * apply Hcontract.
    + reflexivity.
    + cbn [x_norm_triang map nth axis_row]. intros Heq.
      injection Heq as _ Heq _. lra.
Qed.

Lemma three_angles : angles [-1; 1; 0] [0; 0; 1] = [PI; 0; PI / 2].
Proof.
  unfold angles. cbn [zip_with map].
  rewrite np_angle_neg_axis, np_angle_pos_axis, np_angle_up_axis by lra. reflexivity.
Qed.

Lemma ordered_angles : angles [1; 0; -1] [0; 1; 0] = [0; PI / 2; PI].
Proof.
  unfold angles. cbn [zip_with map].
  rewrite (np_angle_pos_axis 1), np_angle_up_axis, (np_angle_neg_axis (-1)) by lra.
  reflexivity.
Qed.

Lemma quicksort_of_three_angles :
  NumpySort.np_argsort [PI; 0; PI / 2] = Ret [1; 2; 0]%nat.
Proof.
  rewrite (np_argsort_by_rank _ (fun i => nth i [2; 0; 1]%nat 0%nat)).
  - reflexivity.
  - pose proof PI_RGT_0 as Hpi.
    intros [|[|[|[|i]]]] [|[|[|[|j]]]]; cbn [nth Nat.ltb Nat.leb];
      (apply Rltb_true || apply Rltb_false); lra.
Qed.

Lemma quicksort_of_ordered_angles :
  NumpySort.np_argsort [0; PI / 2; PI] = Ret [0; 1; 2]%nat.
Proof.
  rewrite (np_argsort_by_rank _ (fun i => nth i [0; 1; 2]%nat 0%nat)).
  - reflexivity.
  - pose proof PI_RGT_0 as Hpi.
    intros [|[|[|[|i]]]] [|[|[|[|j]]]]; cbn [nth Nat.ltb Nat.leb];
      (apply Rltb_true || apply Rltb_false); lra.
Qed.

(** Three samples at the angles pi, 0, pi/2, sorted by numpy's
    quicksort. *)
Lemma angular_sort_is_sorted_permutation_witness :
  exists out : sorted_coordinates,
    sort_stable_boundary_coordinates NumpySort.np_argsort three_tbt three_nc = Ret out /\
    Sorted Rle (angles (x_norm_triang out) (px_norm_triang out)) /\
    Permutation (x_triang out) [10; 20; 30] /\
    Permutation (px_triang out) [1; 2; 3] /\
    Permutation (x_norm_triang out) [-1; 1; 0] /\
    Permutation (px_norm_triang out) [0; 0; 1].
Proof.
  destruct (angular_sort_is_sorted_permutation NumpySort.np_argsort three_tbt three_nc
              [10; 20; 30] [1; 2; 3] [-1; 1; 0] [0; 0; 1])
    as (out & idx & Hrun & Hsorted & H1 & H2 & H3 & H4 & _);
    try reflexivity.
  - exists [1; 2; 0]%nat. rewrite three_angles.
    split; [apply quicksort_of_three_angles|]. split.
    + apply (bool_decide_unpack _). vm_compute. reflexivity.
    + pose proof PI_RGT_0 as Hpi. cbn [map nth]. repeat constructor; lra.
  - exists out. auto 6.
Defined.

(** Three samples at the angles 0, pi/2, pi come back as they are. *)
Lemma angular_sort_fixes_strictly_sorted_witness :
  sort_stable_boundary_coordinates NumpySort.np_argsort three_tbt ordered_nc
  = Ret (mkSorted [10; 20; 30] [1; 2; 3] [1; 0; -1] [0; 1; 0]).
Proof.
  apply (angular_sort_fixes_strictly_sorted NumpySort.np_argsort three_tbt ordered_nc
           [10; 20; 30] [1; 2; 3] [1; 0; -1] [0; 1; 0]);
    try reflexivity.
  - exists [0; 1; 2]%nat. rewrite ordered_angles.
    split; [apply quicksort_of_ordered_angles|]. split.
    + reflexivity.
    + pose proof PI_RGT_0 as Hpi. cbn [map nth]. repeat constructor; lra.
  - rewrite ordered_angles. pose proof PI_RGT_0 as Hpi. repeat constructor; lra.
Defined.

End AngularSortTests.

(** ** Fixed points *)

Section FixedPointFacts.

Import Cplx FixedPoints.

Local Open Scope R_scope.

Lemma argmax_from_spec (a : list R) :
  forall (p : list R) (best : R) (ibest : nat),
    p !! ibest = Some best ->
    Forall (fun u => u <= best) p ->
    (forall j u, (j < ibest)%nat -> p !! j = Some u -> u < best) ->
    exists m,
      (p ++ a) !! argmax_from best ibest (length p) a = Some m /\
      Forall (fun u => u <= m) (p ++ a) /\
      (forall j u, (j < argmax_from best ibest (length p) a)%nat ->
                   (p ++ a) !! j = Some u -> u < m).
Proof.
  induction a as [|v a IH]; intros p best ibest Hbest Hmax Hfirst.
  - cbn [argmax_from]. rewrite app_nil_r. exists best. auto.
  - cbn [argmax_from].
    replace (p ++ v :: a) with ((p ++ [v]) ++ a) by (rewrite <- app_assoc; reflexivity).
    replace (S (length p)) with (length (p ++ [v])) by (rewrite length_app; cbn; lia).
    destruct (Rltb best v) eqn:Hlt.
    + apply Rltb_true in Hlt.
      apply (IH (p ++ [v]) v (length p)).
      * rewrite lookup_app_r by lia. rewrite Nat.sub_diag. reflexivity.
      * apply Forall_app. split.
        -- eapply Forall_impl; [exact Hmax|]. intros u Hu. cbn beta in Hu. lra.
        -- constructor; [lra|constructor].
      * intros j u Hj Hu.
        rewrite lookup_app_l in Hu by lia.
        rewrite Forall_lookup in Hmax. specialize (Hmax j u Hu). cbn beta in Hmax. lra.
    + apply Rltb_false in Hlt.
      apply IH.
      * rewrite lookup_app_l; [exact Hbest|]. apply lookup_lt_Some in Hbest. exact Hbest.
      * apply Forall_app. split; [exact Hmax|]. constructor; [exact Hlt|constructor].
      * intros j u Hj Hu. apply (Hfirst j u Hj).
        rewrite lookup_app_l in Hu; [exact Hu|].
        apply lookup_lt_Some in Hbest. lia.
Qed.

(** [np.argmax] succeeds on a non-empty array and returns the first
    index at which the array is largest. *)
Lemma np_argmax_spec (a : list R) :
  a <> [] ->
  exists i m,
    np_argmax a = Ret i /\
    a !! i = Some m /\
    Forall (fun u => u <= m) a /\
    (forall j u, (j < i)%nat -> a !! j = Some u -> u < m).
Proof.
  destruct a as [|v a]; [congruence|]. intros _. cbn [np_argmax].
  destruct (argmax_from_spec a [v] v 0%nat) as (m & Hm & Hmax & Hfirst).
  - reflexivity.
  - constructor; [lra|constructor].
  - intros j u Hj. lia.
  - exists (argmax_from v 0 1 a), m. auto.
Qed.

(** An array whose first entry is not exceeded has its maximum at
    index 0. *)
Lemma np_argmax_first (v : R) (a : list R) :
  Forall (fun u => u <= v) a -> np_argmax (v :: a) = Ret 0%nat.
Proof.
  intros Hall. cbn [np_argmax]. f_equal.
  generalize 1%nat. induction Hall as [|u a Hu _ IH]; intros i; [reflexivity|].
  cbn [argmax_from]. replace (Rltb v u) with false; [apply IH|].
  symmetry. apply Rltb_false. exact Hu.
Qed.

Lemma Cabs_nonneg (z : complex) : 0 <= Cabs z.
Proof. apply sqrt_pos. Qed.

Lemma Cabs_sqr (z : complex) : Cabs z * Cabs z = re z * re z + im z * im z.
Proof. unfold Cabs. apply sqrt_sqrt. nra. Qed.

Lemma search_mask_length (z : list complex) (z1 turn : complex) (t : R) :
  length (search_mask z z1 turn t) = length z.
Proof. unfold search_mask. apply length_map. Qed.


Lemma masked_not_nil (z : list complex) (z1 turn : complex) (t : R) :
  z <> [] -> zip_with mul_mask (map Cabs z) (search_mask z z1 turn t) <> [].
Proof.
  destruct z as [|z0 z]; [congruence|]. intros _. discriminate.
Qed.

Lemma masked_length (z : list complex) (z1 turn : complex) (t : R) :
  length (zip_with mul_mask (map Cabs z) (search_mask z z1 turn t)) = length z.
Proof. rewrite length_zip_with, length_map, search_mask_length. lia. Qed.

(** The run of the function on four rows of one, non-zero, length: the
    three indices come from three calls of [np.argmax], and the result
    holds the samples of these three turns. *)
Lemma find_fixed_points_run (tbt_triang : record R) (nc_tbt_triang : nc_record R)
    (threshold : R) (xs pxs xn pxn : list R) :
  row0 (x tbt_triang) = Ret xs ->
  row0 (px tbt_triang) = Ret pxs ->
  row0 (x_norm nc_tbt_triang) = Ret xn ->
  row0 (px_norm nc_tbt_triang) = Ret pxn ->
  length xs = length xn ->
  length pxs = length xn ->
  length pxn = length xn ->
  xn <> [] ->
  exists (i1 i2 i3 : nat) (z1 z2 z3 p1 p2 p3 : complex),
    np_argmax (map Cabs (zip_with mkC xn pxn)) = Ret i1 /\
    zip_with mkC xn pxn !! i1 = Some z1 /\
    np_argmax (zip_with mul_mask (map Cabs (zip_with mkC xn pxn))
                 (search_mask (zip_with mkC xn pxn) z1 plus_120 threshold)) = Ret i2 /\
    zip_with mkC xn pxn !! i2 = Some z2 /\
    np_argmax (zip_with mul_mask (map Cabs (zip_with mkC xn pxn))
                 (search_mask (zip_with mkC xn pxn) z1 minus_120 threshold)) = Ret i3 /\
    zip_with mkC xn pxn !! i3 = Some z3 /\
    zip_with mkC xs pxs !! i1 = Some p1 /\
    zip_with mkC xs pxs !! i2 = Some p2 /\
    zip_with mkC xs pxs !! i3 = Some p3 /\
    find_fixed_points tbt_triang nc_tbt_triang threshold =
    Ret (mkFixedPoints [re z1; re z2; re z3] [im z1; im z2; im z3]
                       [re p1; re p2; re p3] [im p1; im p2; im p3]).
Proof.
  intros Hx Hpx Hxn Hpxn Hlx Hlpx Hlpxn Hne.
  set (z := zip_with mkC xn pxn). set (zp := zip_with mkC xs pxs).
  assert (Hlz : length z = length xn) by (unfold z; rewrite length_zip_with; lia).
  assert (Hlzp : length zp = length xn) by (unfold zp; rewrite length_zip_with; lia).
  assert (Hzne : z <> []).
  { intros Hz. apply Hne. apply length_zero_iff_nil. rewrite <- Hlz, Hz. reflexivity. }
  destruct (np_argmax_spec (map Cabs z)) as (i1 & m1 & Hi1 & Hm1 & _).
  { intros Hnil. apply Hzne. apply (fmap_nil_inv _ _ Hnil). }
  assert (Hi1lt : (i1 < length z)%nat).
  { apply lookup_lt_Some in Hm1. rewrite length_map in Hm1. exact Hm1. }
  destruct (lookup_lt_is_Some_2 z i1 Hi1lt) as [z1 Hz1].
  destruct (np_argmax_spec _ (masked_not_nil z z1 plus_120 threshold Hzne))
    as (i2 & m2 & Hi2 & Hm2 & _).
  assert (Hi2lt : (i2 < length z)%nat).
  { apply lookup_lt_Some in Hm2. rewrite masked_length in Hm2. exact Hm2. }
  destruct (lookup_lt_is_Some_2 z i2 Hi2lt) as [z2 Hz2].
  destruct (np_argmax_spec _ (masked_not_nil z z1 minus_120 threshold Hzne))
    as (i3 & m3 & Hi3 & Hm3 & _).
  assert (Hi3lt : (i3 < length z)%nat).
  { apply lookup_lt_Some in Hm3. rewrite masked_length in Hm3. exact Hm3. }
  destruct (lookup_lt_is_Some_2 z i3 Hi3lt) as [z3 Hz3].
  destruct (lookup_lt_is_Some_2 zp i1) as [p1 Hp1]; [lia|].
  destruct (lookup_lt_is_Some_2 zp i2) as [p2 Hp2]; [lia|].
  destruct (lookup_lt_is_Some_2 zp i3) as [p3 Hp3]; [lia|].
  exists i1, i2, i3, z1, z2, z3, p1, p2, p3.
  repeat (split; [assumption|]).
  unfold find_fixed_points.
  rewrite Hx, Hpx, Hxn, Hpxn. cbn [obind].
  unfold np_complex. rewrite Hlpxn, Nat.eqb_refl. cbn [obind].
  replace (length xs =? length pxs)%nat with true by (symmetry; apply Nat.eqb_eq; lia).
  cbn [obind]. fold z zp.
  rewrite Hi1. cbn [obind]. rewrite np_getitem_nonneg, Hz1. cbn [obind].
  rewrite Hi2. cbn [obind]. rewrite Hi3. cbn [obind].
  cbn [np_take]. rewrite Hz1, Hz2, Hz3, Hp1, Hp2, Hp3. reflexivity.
Qed.

(** With a mask that is false everywhere the masked amplitudes are
    all zero, and [np.argmax] answers 0. *)
Lemma np_argmax_of_empty_mask (r : list R) (mask : list bool) (i : nat) :
  Forall (fun m => m = false) mask ->
  np_argmax (zip_with mul_mask r mask) = Ret i ->
  i = 0%nat.
Proof.
  intros Hmask Hi.
  assert (Hzero : Forall (fun u => u = 0) (zip_with mul_mask r mask)).
  { clear Hi. revert r. induction Hmask as [|m mask Hm _ IH]; intros [|v r]; cbn [zip_with];
      constructor; [subst m; reflexivity|apply IH]. }
  destruct (zip_with mul_mask r mask) as [|v a]; [discriminate|].
  apply Forall_cons in Hzero as [-> Hzero].
  rewrite np_argmax_first in Hi; [congruence|].
  eapply Forall_impl; [exact Hzero|]. intros u ->. lra.
Qed.


(** *** The turns by 120 degrees *)




Lemma Cabs_of_sqr (z : complex) (s : R) :
  0 <= s -> re z * re z + im z * im z = s * s -> Cabs z = s.
Proof.
  intros Hs Hz. unfold Cabs. rewrite Hz. apply sqrt_square. exact Hs.
Qed.









(** *** What the three calls of [np.argmax] select *)










End FixedPointFacts.

(** *** Fixed points of test records *)

Section FixedPointTests.

Import Cplx FixedPoints.

Local Open Scope R_scope.



End FixedPointTests.

(** ** More on the bisection *)

Section BisectionMore.

Import Bisection.

Context {L : Type} `{Line L}.

Variables (num_turns : nat) (d_gen xBoundary : Q) (xSearch : loc) (absPrecisio : Q).

Local Abbreviation run fuel := (closest_stable_unstable fuel num_turns d_gen xBoundary xSearch absPrecisio).
Local Abbreviation step := (bisect_step num_turns d_gen xBoundary).
Local Abbreviation iter k := (bisect_iter k num_turns d_gen xBoundary).

(** The classification of a start position by a line in state [ln]. *)
Local Abbreviation unstable ln x0 :=
  (any_gt (x (record_last_track (track ln (build_particles ln x0 d_gen) num_turns)))
          xBoundary).

Lemma pow2_pos (k : nat) : (0 < inject_Z (2 ^ Z.of_nat k))%Q.
Proof.
  change 0%Q with (inject_Z 0). rewrite <- Zlt_Qlt. apply Z.pow_pos_nonneg; lia.
Qed.

Lemma midpoint_between (lo hi : Q) :
  (lo <= hi)%Q -> (lo <= (lo + hi) / 2 <= hi)%Q.
Proof.
  intros Hle. split.
  - apply Qle_shift_div_l; [reflexivity|].
    assert (E : (lo * 2 == lo + lo)%Q) by ring. rewrite E.
    apply Qplus_le_compat; [apply Qle_refl|exact Hle].
  - apply Qle_shift_div_r; [reflexivity|].
    assert (E : (hi * 2 == hi + hi)%Q) by ring. rewrite E.
    apply Qplus_le_compat; [exact Hle|apply Qle_refl].
Qed.

Lemma nested_kept (k : nat) :
  forall s : Q * Q * L,
    (fst (fst s) <= snd (fst s))%Q ->
    (fst (fst s) <= fst (fst (iter k s)))%Q /\
    (fst (fst (iter k s)) <= snd (fst (iter k s)))%Q /\
    (snd (fst (iter k s)) <= snd (fst s))%Q.
Proof.
  induction k as [|k IH]; intros s Hs.
  - cbn [bisect_iter]. split; [apply Qle_refl|]. split; [exact Hs|apply Qle_refl].
  - cbn [bisect_iter].
    destruct s as [[lo hi] ln]. cbn [fst snd] in Hs.
    destruct (midpoint_between lo hi Hs) as [Hlm Hmh].
    assert (Hstep : (lo <= fst (fst (step (lo, hi, ln))))%Q /\
                    (fst (fst (step (lo, hi, ln))) <= snd (fst (step (lo, hi, ln))))%Q /\
                    (snd (fst (step (lo, hi, ln))) <= hi)%Q).
    { unfold bisect_step. destruct (any_gt _ _); cbn [fst snd].
      - split; [apply Qle_refl|]. split; assumption.
      - split; [assumption|]. split; [assumption|apply Qle_refl]. }
    destruct Hstep as (H1 & H2 & H3).
    destruct (IH (step (lo, hi, ln)) H2) as (H4 & H5 & H6).
    cbn [fst snd]. split; [eapply Qle_trans; eassumption|].
    split; [exact H5|eapply Qle_trans; eassumption].
Qed.

(** The returned interval lies inside the initial one. *)
Theorem bisection_interval_nested (w : world L) (lo hi : Q) (rest : list Q) :
  heap w !! xSearch = Some (lo :: hi :: rest) ->
  (lo <= hi)%Q ->
  (0 < absPrecisio)%Q ->
  exists k : nat, forall fuel, (k < fuel)%nat ->
    exists (lo' hi' : Q) (w' : world L),
      run fuel w = Ret (xSearch, w') /\
      heap w' !! xSearch = Some (lo' :: hi' :: rest) /\
      (lo <= lo')%Q /\ (lo' <= hi')%Q /\ (hi' <= hi)%Q.
Proof.
  intros Hh Hle Hprec.
  destruct (bisection_result num_turns d_gen xBoundary xSearch absPrecisio
              w lo hi rest Hh Hprec) as (k & _ & _ & Hrun).
  exists k. intros fuel Hfuel.
  eexists _, _, _. split; [apply Hrun; exact Hfuel|].
  split; [cbn [heap]; apply lookup_insert_eq|].
  apply (nested_kept k (lo, hi, line w)). exact Hle.
Qed.

(** With too small a step budget the loop is cut short. *)
Lemma run_cut_short (fuel : nat) :
  forall (k : nat) (w : world L) (lo hi : Q) (rest : list Q),
    heap w !! xSearch = Some (lo :: hi :: rest) ->
    (fuel <= k)%nat ->
    (forall j, (j < k)%nat -> (absPrecisio < width (iter j (lo, hi, line w)))%Q) ->
    run fuel w = OutOfFuel.
Proof.
  induction fuel as [|fuel IH]; intros k w lo hi rest Hh Hfuel Hbefore; [reflexivity|].
  destruct k as [|k]; [lia|].
  assert (Hgo : Qltb absPrecisio (hi - lo) = true).
  { apply Qltb_true. apply (Hbefore 0%nat). lia. }
  rewrite (loop_pass num_turns d_gen xBoundary xSearch absPrecisio fuel w lo hi rest Hh Hgo).
  apply (IH k _ (fst (fst (step (lo, hi, line w)))) (snd (fst (step (lo, hi, line w)))) rest).
  - cbn [heap]. apply lookup_insert_eq.
  - lia.
  - intros j Hj. cbn [line]. rewrite <- step_eta. apply (Hbefore (S j)). lia.
Qed.

(** Over exact arithmetic, the number of passes, that is of tracked
    particles, is the least [k] with [(hi - lo) / 2 ^ k <= absPrecisio]:
    it depends on the initial width and the precision only, not on what
    the tracker answers.  A step budget of [k] or less is exhausted, a
    larger one gives the result.  (With rounded numbers the width is
    not halved exactly once the bounds are neighbours, and the count
    then depends on where the bounds are.) *)
Theorem bisection_pass_count (w : world L) (lo hi : Q) (rest : list Q) :
  heap w !! xSearch = Some (lo :: hi :: rest) ->
  (0 < absPrecisio)%Q ->
  exists k : nat,
    (hi - lo <= absPrecisio * inject_Z (2 ^ Z.of_nat k))%Q /\
    (forall j, (j < k)%nat -> (absPrecisio * inject_Z (2 ^ Z.of_nat j) < hi - lo)%Q) /\
    (forall fuel, (fuel <= k)%nat -> run fuel w = OutOfFuel) /\
    (forall fuel, (k < fuel)%nat -> exists w', run fuel w = Ret (xSearch, w')).
Proof.
  intros Hh Hprec.
  destruct (bisection_result num_turns d_gen xBoundary xSearch absPrecisio
              w lo hi rest Hh Hprec) as (k & Hlast & Hbefore & Hrun).
  exists k. split; [|split; [|split]].
  - pose proof (width_iter num_turns d_gen xBoundary k (lo, hi, line w)) as Hw.
    change (width (lo, hi, line w)) with (hi - lo)%Q in Hw. rewrite <- Hw.
    apply Qmult_le_compat_r; [exact Hlast|apply Qlt_le_weak, pow2_pos].
  - intros j Hj.
    pose proof (width_iter num_turns d_gen xBoundary j (lo, hi, line w)) as Hw.
    change (width (lo, hi, line w)) with (hi - lo)%Q in Hw. rewrite <- Hw.
    apply Qmult_lt_compat_r; [apply pow2_pos|apply Hbefore; exact Hj].
  - intros fuel Hfuel. apply (run_cut_short fuel k w lo hi rest); assumption.
  - intros fuel Hfuel. eexists. apply Hrun. exact Hfuel.
Qed.

(** With a precision that is not positive and a lower bound below the
    upper bound the loop never ends (in exact arithmetic): every step
    budget is exhausted. *)
Theorem bisection_never_ends (fuel : nat) :
  forall (w : world L) (lo hi : Q) (rest : list Q),
    heap w !! xSearch = Some (lo :: hi :: rest) ->
    (absPrecisio <= 0)%Q ->
    (lo < hi)%Q ->
    run fuel w = OutOfFuel.
Proof.
  induction fuel as [|fuel IH]; intros w lo hi rest Hh Hprec Hlt; [reflexivity|].
  assert (Hpos : (0 < hi - lo)%Q).
  { rewrite <- (Qplus_opp_r lo). apply Qplus_lt_l. exact Hlt. }
  assert (Hgo : Qltb absPrecisio (hi - lo) = true).
  { apply Qltb_true. eapply Qle_lt_trans; eassumption. }
  rewrite (loop_pass num_turns d_gen xBoundary xSearch absPrecisio fuel w lo hi rest Hh Hgo).
  apply (IH _ (fst (fst (step (lo, hi, line w)))) (snd (fst (step (lo, hi, line w)))) rest).
  - cbn [heap]. apply lookup_insert_eq.
  - exact Hprec.
  - pose proof (width_step num_turns d_gen xBoundary (lo, hi, line w)) as Hw.
    unfold width in Hw at 1. change (width (lo, hi, line w)) with (hi - lo)%Q in Hw.
    assert (Hhalf : (0 < (hi - lo) / 2)%Q) by (apply Qlt_shift_div_l; [reflexivity|rewrite Qmult_0_l; exact Hpos]).
    rewrite <- Hw in Hhalf.
    apply Qplus_lt_l with (z := (- fst (fst (step (lo, hi, line w))))%Q).
    rewrite Qplus_opp_r. exact Hhalf.
Qed.

(** A list with fewer than two entries makes the function raise
    [IndexError] at the first evaluation of the loop test, whatever the
    step budget; and it is only for such a list that the function
    raises [IndexError]: the loop reads and writes the entries 0 and 1
    and no other. *)
Theorem bisection_index_error (w : world L) (l : list Q) :
  heap w !! xSearch = Some l ->
  ((length l < 2)%nat -> forall fuel, run (S fuel) w = Raise IndexError) /\
  (forall fuel, run fuel w = Raise IndexError -> (length l < 2)%nat).
Proof.
  intros Hh. split.
  - intros Hshort fuel. cbn [closest_stable_unstable]. unfold bind, list_get.
    rewrite Hh. destruct l as [|a [|b l]]; [reflexivity|reflexivity|cbn in Hshort; lia].
  - intros fuel Herr.
    destruct l as [|lo [|hi rest]]; [cbn; lia|cbn; lia|]. exfalso.
    revert w lo hi Hh Herr.
    induction fuel as [|fuel IH]; intros w lo hi Hh Herr; [discriminate|].
    destruct (Qltb absPrecisio (hi - lo)) eqn:Hgo.
    + rewrite (loop_pass num_turns d_gen xBoundary xSearch absPrecisio fuel w lo hi rest Hh Hgo)
        in Herr.
      eapply IH; [|exact Herr]. cbn [heap]. apply lookup_insert_eq.
    + rewrite (loop_exit num_turns d_gen xBoundary xSearch absPrecisio fuel w lo hi rest Hh Hgo)
        in Herr.
      discriminate.
Qed.

(** For a tracker whose classification of a start position does not
    depend on what the line tracked before, a bound that the loop has
    moved is classified for good: a moved lower bound is stable, a
    moved upper bound is unstable. *)
Lemma endpoints_kept :
  (forall (ln ln' : L) (x0 : Q), unstable ln x0 = unstable ln' x0) ->
  forall (k : nat) (s : Q * Q * L),
    (fst (fst (iter k s)) = fst (fst s) \/
     forall ln, unstable ln (fst (fst (iter k s))) = false) /\
    (snd (fst (iter k s)) = snd (fst s) \/
     forall ln, unstable ln (snd (fst (iter k s))) = true).
Proof.
  intros Hind. induction k as [|k IH]; intros s; [cbn [bisect_iter]; auto|].
  cbn [bisect_iter]. destruct (IH (step s)) as [Hlo Hhi].
  destruct s as [[lo hi] ln0]. cbn [fst snd].
  unfold bisect_step in Hlo, Hhi |- *.
  destruct (any_gt _ _) eqn:Hany; cbn [fst snd] in Hlo, Hhi |- *.
  - split; [exact Hlo|]. destruct Hhi as [-> | Hhi]; [|right; exact Hhi].
    right. intros ln. rewrite (Hind ln ln0). exact Hany.
  - split; [|exact Hhi]. destruct Hlo as [-> | Hlo]; [|right; exact Hlo].
    right. intros ln. rewrite (Hind ln ln0). exact Hany.
Qed.

Theorem bisection_endpoints_classified (w : world L) (lo hi : Q) (rest : list Q) :
  (forall (ln ln' : L) (x0 : Q), unstable ln x0 = unstable ln' x0) ->
  heap w !! xSearch = Some (lo :: hi :: rest) ->
  (0 < absPrecisio)%Q ->
  exists k : nat, forall fuel, (k < fuel)%nat ->
    exists (lo' hi' : Q) (w' : world L),
      run fuel w = Ret (xSearch, w') /\
      heap w' !! xSearch = Some (lo' :: hi' :: rest) /\
      (lo' = lo \/ forall ln, unstable ln lo' = false) /\
      (hi' = hi \/ forall ln, unstable ln hi' = true).
Proof.
  intros Hind Hh Hprec.
  destruct (bisection_result num_turns d_gen xBoundary xSearch absPrecisio
              w lo hi rest Hh Hprec) as (k & _ & _ & Hrun).
  exists k. intros fuel Hfuel.
  eexists _, _, _. split; [apply Hrun; exact Hfuel|].
  split; [cbn [heap]; apply lookup_insert_eq|].
  apply (endpoints_kept Hind k (lo, hi, line w)).
Qed.

(** After the bisection, [record_separatrix] on the same list tracks
    the particle of the final outer edge: when the initial outer edge
    is unstable (and the classification does not depend on the history
    of the line), the recording that it returns crosses the septum.  It
    changes no list. *)
Theorem separatrix_recording_crosses_septum (w : world L) (lo hi : Q) (rest : list Q) :
  (forall (ln ln' : L) (x0 : Q), unstable ln x0 = unstable ln' x0) ->
  heap w !! xSearch = Some (lo :: hi :: rest) ->
  (0 < absPrecisio)%Q ->
  unstable (line w) hi = true ->
  exists k : nat, forall fuel, (k < fuel)%nat ->
    exists (w' w'' : world L) (rec_sep : record Q),
      run fuel w = Ret (xSearch, w') /\
      Recorder.record_separatrix xSearch num_turns d_gen w' = Ret (rec_sep, w'') /\
      any_gt (x rec_sep) xBoundary = true /\
      heap w'' = heap w' /\
      record_last_track (line w'') = rec_sep.
Proof.
  intros Hind Hh Hprec Hinit.
  destruct (bisection_result num_turns d_gen xBoundary xSearch absPrecisio
              w lo hi rest Hh Hprec) as (k & _ & _ & Hrun).
  exists k. intros fuel Hfuel.
  eexists _, _, _. split; [apply Hrun; exact Hfuel|].
  unfold Recorder.record_separatrix, bind, list_get. cbn [heap].
  rewrite lookup_insert_eq. cbn [lookup list_lookup]. unfold track_test. cbn [heap line].
  split; [reflexivity|]. split; [|split; reflexivity].
  destruct (endpoints_kept Hind k (lo, hi, line w)) as [_ [Heq | Hhi]].
  - cbn [fst snd] in Heq. rewrite Heq. rewrite (Hind _ (line w)). exact Hinit.
  - apply Hhi.
Qed.

(** Likewise [find_boundary_stable] tracks the particle of the final
    inner edge: when the initial inner edge is stable, the recording
    that it returns never crosses the septum. *)
Theorem stable_recording_stays_inside (w : world L) (lo hi : Q) (rest : list Q) :
  (forall (ln ln' : L) (x0 : Q), unstable ln x0 = unstable ln' x0) ->
  heap w !! xSearch = Some (lo :: hi :: rest) ->
  (0 < absPrecisio)%Q ->
  unstable (line w) lo = false ->
  exists k : nat, forall fuel, (k < fuel)%nat ->
    exists (w' w'' : world L) (triangle : record Q),
      run fuel w = Ret (xSearch, w') /\
      Recorder.find_boundary_stable xSearch num_turns d_gen w' = Ret (triangle, w'') /\
      any_gt (x triangle) xBoundary = false /\
      heap w'' = heap w' /\
      record_last_track (line w'') = triangle.
Proof.
  intros Hind Hh Hprec Hinit.
  destruct (bisection_result num_turns d_gen xBoundary xSearch absPrecisio
              w lo hi rest Hh Hprec) as (k & _ & _ & Hrun).
  exists k. intros fuel Hfuel.
  eexists _, _, _. split; [apply Hrun; exact Hfuel|].
  unfold Recorder.find_boundary_stable, bind, list_get. cbn [heap].
  rewrite lookup_insert_eq. cbn [lookup list_lookup]. unfold track_test. cbn [heap line].
  split; [reflexivity|]. split; [|split; reflexivity].
  destruct (endpoints_kept Hind k (lo, hi, line w)) as [[Heq | Hlo] _].
  - cbn [fst snd] in Heq. rewrite Heq. rewrite (Hind _ (line w)). exact Hinit.
  - apply Hlo.
Qed.

End BisectionMore.

(** *** The bisection scenario once more *)

Section BisectionMoreTests.

Import Bisection.

Lemma frozen_history_free (n : nat) (d_gen xBoundary : Q)
    (ln ln' : frozen_line) (x0 : Q) :
  any_gt (x (record_last_track (track ln (build_particles ln x0 d_gen) n))) xBoundary
  = any_gt (x (record_last_track (track ln' (build_particles ln' x0 d_gen) n))) xBoundary.
Proof. reflexivity. Qed.

Lemma bisection_interval_nested_witness :
  exists k : nat, forall fuel, (k < fuel)%nat ->
    exists (lo' hi' : Q) (w' : world frozen_line),
      closest_stable_unstable fuel 1000 0%Q (35 # 1000) 1%positive (1 # 1000000) caller_store
        = Ret (1%positive, w') /\
      heap w' !! 1%positive = Some [lo'; hi'] /\
      (0 <= lo')%Q /\ (lo' <= hi')%Q /\ (hi' <= 1)%Q.
Proof.
  apply (bisection_interval_nested 1000 0%Q (35 # 1000) 1%positive (1 # 1000000)
           caller_store 0%Q 1%Q []); [reflexivity | discriminate | reflexivity].
Defined.

Lemma bisection_pass_count_witness :
  exists k : nat,
    (1 - 0 <= (1 # 1000000) * inject_Z (2 ^ Z.of_nat k))%Q /\
    (forall j, (j < k)%nat -> ((1 # 1000000) * inject_Z (2 ^ Z.of_nat j) < 1 - 0)%Q) /\
    (forall fuel, (fuel <= k)%nat ->
       closest_stable_unstable fuel 1000 0%Q (35 # 1000) 1%positive (1 # 1000000) caller_store
       = OutOfFuel) /\
    (forall fuel, (k < fuel)%nat ->
       exists w',
         closest_stable_unstable fuel 1000 0%Q (35 # 1000) 1%positive (1 # 1000000)
           caller_store = Ret (1%positive, w')).
Proof.
  apply (bisection_pass_count 1000 0%Q (35 # 1000) 1%positive (1 # 1000000)
           caller_store 0%Q 1%Q []); reflexivity.
Defined.

Lemma bisection_never_ends_witness :
  closest_stable_unstable 50 1000 0%Q (35 # 1000) 1%positive 0%Q caller_store = OutOfFuel.
Proof.
  apply (bisection_never_ends 1000 0%Q (35 # 1000) 1%positive 0%Q 50
           caller_store 0%Q 1%Q []); [reflexivity | discriminate | reflexivity].
Defined.

(** The list [[0]] raises; the list [[0, 1]] does not. *)
Lemma bisection_index_error_witness :
  (forall fuel,
     closest_stable_unstable (S fuel) 1000 0%Q (35 # 1000) 1%positive (1 # 1000000)
       Recorder.one_entry_store = Raise IndexError) /\
  (forall fuel,
     closest_stable_unstable fuel 1000 0%Q (35 # 1000) 1%positive (1 # 1000000)
       caller_store <> Raise IndexError).
Proof.
  split.
  - apply (bisection_index_error 1000 0%Q (35 # 1000) 1%positive (1 # 1000000)
             Recorder.one_entry_store [0%Q]); [reflexivity|cbn; lia].
  - intros fuel Herr.
    apply (bisection_index_error 1000 0%Q (35 # 1000) 1%positive (1 # 1000000)
             caller_store [0%Q; 1%Q]) in Herr; [cbn in Herr; lia|reflexivity].
Defined.

Lemma bisection_endpoints_classified_witness :
  exists k : nat, forall fuel, (k < fuel)%nat ->
    exists (lo' hi' : Q) (w' : world frozen_line),
      closest_stable_unstable fuel 1000 0%Q (35 # 1000) 1%positive (1 # 1000000) caller_store
        = Ret (1%positive, w') /\
      heap w' !! 1%positive = Some [lo'; hi'] /\
      (lo' = 0%Q \/
       forall ln : frozen_line,
         any_gt (x (record_last_track (track ln (build_particles ln lo' 0%Q) 1000)))
                (35 # 1000) = false) /\
      (hi' = 1%Q \/
       forall ln : frozen_line,
         any_gt (x (record_last_track (track ln (build_particles ln hi' 0%Q) 1000)))
                (35 # 1000) = true).
Proof.
  apply (bisection_endpoints_classified 1000 0%Q (35 # 1000) 1%positive (1 # 1000000)
           caller_store 0%Q 1%Q []);
    [intros ln ln' x0; apply frozen_history_free | reflexivity | reflexivity].
Defined.

Lemma separatrix_recording_crosses_septum_witness :
  exists k : nat, forall fuel, (k < fuel)%nat ->
    exists (w' w'' : world frozen_line) (rec_sep : record Q),
      closest_stable_unstable fuel 1000 0%Q (35 # 1000) 1%positive (1 # 1000000) caller_store
        = Ret (1%positive, w') /\
      Recorder.record_separatrix 1%positive 1000 0%Q w' = Ret (rec_sep, w'') /\
      any_gt (x rec_sep) (35 # 1000) = true /\
      heap w'' = heap w' /\
      record_last_track (line w'') = rec_sep.
Proof.
  apply (separatrix_recording_crosses_septum 1000 0%Q (35 # 1000) 1%positive (1 # 1000000)
           caller_store 0%Q 1%Q []);
    [intros ln ln' x0; apply frozen_history_free | reflexivity | reflexivity
    | vm_compute; reflexivity].
Defined.

Lemma stable_recording_stays_inside_witness :
  exists k : nat, forall fuel, (k < fuel)%nat ->
    exists (w' w'' : world frozen_line) (triangle : record Q),
      closest_stable_unstable fuel 1000 0%Q (35 # 1000) 1%positive (1 # 1000000) caller_store
        = Ret (1%positive, w') /\
      Recorder.find_boundary_stable 1%positive 1000 0%Q w' = Ret (triangle, w'') /\
      any_gt (x triangle) (35 # 1000) = false /\
      heap w'' = heap w' /\
      record_last_track (line w'') = triangle.
Proof.
  apply (stable_recording_stays_inside 1000 0%Q (35 # 1000) 1%positive (1 # 1000000)
           caller_store 0%Q 1%Q []);
    [intros ln ln' x0; apply frozen_history_free | reflexivity | reflexivity
    | vm_compute; reflexivity].
Defined.


End BisectionMoreTests.

(** ** More on the septum fit *)

Section SeptumMore.

Import Septum.

Local Open Scope Q_scope.

(** What a returned result was computed from. *)
Lemma separatrix_at_septum_inv (rec_sep : record Q) (xBoundary : Q)
    (res : separatrix_results) :
  separatrix_at_septum rec_sep xBoundary = Ret res ->
  exists (xs pxs : list Q) (i : nat) (xa xb pa pb a b : Q),
    row0 (x rec_sep) = Ret xs /\
    row0 (px rec_sep) = Ret pxs /\
    np_argmin (map (fun v => Qabs (v - xBoundary)) xs) = Ret i /\
    np_getitem xs (Z.of_nat i + 3) = Ret xa /\
    np_getitem xs (Z.of_nat i - 3) = Ret xb /\
    np_getitem pxs (Z.of_nat i + 3) = Ret pa /\
    np_getitem pxs (Z.of_nat i - 3) = Ret pb /\
    np_polyfit_deg1 xa xb pa pb = [a; b] /\
    res = mkSeparatrixResults a (np_polyval [a; b] xBoundary) i [a; b].
Proof.
  unfold separatrix_at_septum. intros Hres.
  destruct (row0 (x rec_sep)) as [xs| |]; try discriminate.
  destruct (row0 (px rec_sep)) as [pxs| |]; try discriminate. cbn [obind] in Hres.
  destruct (np_argmin _) as [i| |] eqn:Hi; try discriminate. cbn [obind] in Hres.
  destruct (np_getitem xs (Z.of_nat i + 3)) as [xa| |] eqn:Hxa; try discriminate.
  destruct (np_getitem xs (Z.of_nat i - 3)) as [xb| |] eqn:Hxb; try discriminate.
  destruct (np_getitem pxs (Z.of_nat i + 3)) as [pa| |] eqn:Hpa; try discriminate.
  destruct (np_getitem pxs (Z.of_nat i - 3)) as [pb| |] eqn:Hpb; try discriminate.
  cbn [obind] in Hres.
  destruct (np_polyfit_deg1_shape xa xb pa pb) as (a & b & Hfit).
  rewrite Hfit in Hres. cbn in Hres. injection Hres as <-.
  exists xs, pxs, i, xa, xb, pa, pb, a, b. auto 10.
Qed.


(** A record of fewer than four turns never gives a result: no turn
    at all raises [ValueError] (the closest turn of nothing), one to
    three turns raise [IndexError]. *)
Theorem short_record_has_no_fit (rec_sep : record Q) (xBoundary : Q) (xs pxs : list Q) :
  row0 (x rec_sep) = Ret xs ->
  row0 (px rec_sep) = Ret pxs ->
  (length xs < 4)%nat ->
  (xs = [] -> separatrix_at_septum rec_sep xBoundary = Raise ValueError) /\
  (xs <> [] -> separatrix_at_septum rec_sep xBoundary = Raise IndexError).
Proof.
  intros Hx Hpx Hshort. split.
  - intros ->. unfold separatrix_at_septum. rewrite Hx, Hpx. reflexivity.
  - intros Hne.
    destruct (np_argmin (map (fun v => Qabs (v - xBoundary)) xs)) as [i| |] eqn:Hi.
    + rewrite (separatrix_at_septum_unfold rec_sep xBoundary xs pxs i Hx Hpx Hi).
      rewrite (np_getitem_out_of_range xs (Z.of_nat i + 3)) by lia. reflexivity.
    + destruct xs; [congruence|discriminate].
    + destruct xs; [congruence|discriminate].
Qed.


(** The dashed segment that [plot_phase_space] draws from the
    coefficients of a result runs from [xBoundary - 0.01] to [xBoundary
    + 0.01]; its midpoint is the point [(xBoundary, px_at_septum)] and
    its slope is the slope of the result. *)
Theorem septum_segment_of_result (rec_sep : record Q) (xBoundary : Q)
    (res : separatrix_results) :
  separatrix_at_septum rec_sep xBoundary = Ret res ->
  exists y1 y2 : Q,
    PhaseSpacePlot.septum_segment (poly_sep res) xBoundary
    = PhaseSpacePlot.mkCurve [xBoundary - (1 # 100); xBoundary + (1 # 100)] [y1; y2] /\
    (y1 + y2) / 2 == px_at_septum res /\
    y2 - y1 == slope res * (2 # 100).
Proof.
  intros Hres.
  destruct (separatrix_at_septum_inv _ _ _ Hres)
    as (xs & pxs & i & xa & xb & pa & pb & a & b & _ & _ & _ & _ & _ & _ & _ & _ & ->).
  cbn [slope px_at_septum poly_sep]. unfold PhaseSpacePlot.septum_segment. cbn [map].
  eexists _, _. split; [reflexivity|]. rewrite !np_polyval_deg1. split; field.
Qed.

End SeptumMore.

(** *** More septum tests *)

Section SeptumMoreTests.

Import Septum.

Local Open Scope Q_scope.


Lemma short_record_has_no_fit_witness :
  ([0; 1; 2] = [] -> separatrix_at_septum short_line_record 0 = Raise ValueError) /\
  ([0; 1; 2] <> [] -> separatrix_at_septum short_line_record 0 = Raise IndexError).
Proof.
  apply (short_record_has_no_fit short_line_record 0 [0; 1; 2] [1; 3; 5]);
    [reflexivity | reflexivity | cbn; lia].
Defined.


Lemma septum_segment_of_result_witness :
  exists y1 y2 : Q,
    PhaseSpacePlot.septum_segment [7; -12] 0
    = PhaseSpacePlot.mkCurve [0 - (1 # 100); 0 + (1 # 100)] [y1; y2] /\
    (y1 + y2) / 2 == -12 /\
    y2 - y1 == 7 * (2 # 100).
Proof.
  apply (septum_segment_of_result parabola_record 0
           (mkSeparatrixResults 7 (-12) 0 [7; -12])). reflexivity.
Defined.

End SeptumMoreTests.

(** ** More on the angular sort *)

Section AngularSortMore.

Import Cplx AngularSort.

Local Open Scope R_scope.

Variable np_argsort : list R -> outcome (list nat).

(** An index array with an index beyond the end of the array raises
    [IndexError]. *)
Lemma np_take_out_of_range {F : Type} (a : list F) (idx : list nat) :
  (exists i, In i idx /\ (length a <= i)%nat) ->
  np_take a idx = Raise IndexError.
Proof.
  induction idx as [|i0 idx IH]; intros (i & Hin & Hi); [destruct Hin|].
  cbn [np_take]. destruct (a !! i0) as [v|] eqn:Hv; [|reflexivity].
  destruct Hin as [-> | Hin].
  - apply lookup_lt_Some in Hv. lia.
  - rewrite IH; [reflexivity|]. exists i. auto.
Qed.

Lemma gather_of_prefix {F : Type} (d : F) (a : list F) (n : nat) (idx : list nat) :
  Forall (fun i => (i < n)%nat) idx ->
  map (fun i => nth i a d) idx = map (fun i => nth i (take n a) d) idx.
Proof.
  induction 1 as [|i idx Hi _ IH]; [reflexivity|].
  cbn [map]. rewrite IH. f_equal.
  rewrite !nth_lookup, lookup_take_lt by exact Hi. reflexivity.
Qed.

(** The function on normalised rows of one length and physical rows
    that are at least as long. *)
Lemma sort_with_long_physical_rows (tbt_triang : record R) (nc_tbt_triang : nc_record R)
    (xs pxs xn pxn : list R) (idx : list nat) :
  row0 (x tbt_triang) = Ret xs ->
  row0 (px tbt_triang) = Ret pxs ->
  row0 (x_norm nc_tbt_triang) = Ret xn ->
  row0 (px_norm nc_tbt_triang) = Ret pxn ->
  (length xn <= length xs)%nat ->
  (length xn <= length pxs)%nat ->
  length pxn = length xn ->
  np_argsort (angles xn pxn) = Ret idx ->
  Permutation idx (seq 0 (length xn)) ->
  sort_stable_boundary_coordinates np_argsort tbt_triang nc_tbt_triang =
  Ret (mkSorted (map (fun i => nth i xs 0) idx) (map (fun i => nth i pxs 0) idx)
                (map (fun i => nth i xn 0) idx) (map (fun i => nth i pxn 0) idx)).
Proof.
  intros Hx Hpx Hxn Hpxn Hlx Hlpx Hlpxn Hsort Hperm.
  pose proof (permutation_in_range _ _ Hperm) as Hrange.
  unfold sort_stable_boundary_coordinates.
  rewrite Hx, Hpx, Hxn, Hpxn. cbn [obind].
  unfold np_complex. rewrite Hlpxn, Nat.eqb_refl. cbn [obind].
  fold (angles xn pxn). rewrite Hsort. cbn [obind].
  rewrite (np_take_in_range 0 xs idx)
    by (eapply Forall_impl; [exact Hrange|]; intros i Hi; cbn beta in Hi; lia).
  rewrite (np_take_in_range 0 pxs idx)
    by (eapply Forall_impl; [exact Hrange|]; intros i Hi; cbn beta in Hi; lia).
  rewrite (np_take_in_range 0 xn idx) by exact Hrange.
  rewrite (np_take_in_range 0 pxn idx) by (rewrite Hlpxn; exact Hrange).
  reflexivity.
Qed.

(** Physical rows with more turns than the normalised rows raise
    nothing: the turns beyond the length [n] of the normalised rows are
    dropped, and the physical outputs are permutations of the first [n]
    entries only. *)
Theorem angular_sort_drops_extra_turns (tbt_triang : record R)
    (nc_tbt_triang : nc_record R) (xs pxs xn pxn : list R) :
  row0 (x tbt_triang) = Ret xs ->
  row0 (px tbt_triang) = Ret pxs ->
  row0 (x_norm nc_tbt_triang) = Ret xn ->
  row0 (px_norm nc_tbt_triang) = Ret pxn ->
  (length xn <= length xs)%nat ->
  (length xn <= length pxs)%nat ->
  length pxn = length xn ->
  (exists idx, np_argsort (angles xn pxn) = Ret idx /\ is_argsort (angles xn pxn) idx) ->
  exists out : sorted_coordinates,
    sort_stable_boundary_coordinates np_argsort tbt_triang nc_tbt_triang = Ret out /\
    Permutation (x_triang out) (take (length xn) xs) /\
    Permutation (px_triang out) (take (length xn) pxs) /\
    Permutation (x_norm_triang out) xn /\
    Permutation (px_norm_triang out) pxn.
Proof.
  intros Hx Hpx Hxn Hpxn Hlx Hlpx Hlpxn (idx & Hsort & Hperm & _).
  rewrite angles_length in Hperm by exact Hlpxn.
  pose proof (permutation_in_range _ _ Hperm) as Hrange.
  eexists. split.
  { apply (sort_with_long_physical_rows _ _ xs pxs xn pxn idx); assumption. }
  cbn [x_triang px_triang x_norm_triang px_norm_triang].
  split; [|split; [|split]].
  - rewrite (gather_of_prefix 0 xs (length xn) idx Hrange).
    apply gather_permutation. rewrite length_take_le by exact Hlx. exact Hperm.
  - rewrite (gather_of_prefix 0 pxs (length xn) idx Hrange).
    apply gather_permutation. rewrite length_take_le by exact Hlpx. exact Hperm.
  - apply gather_permutation. exact Hperm.
  - apply gather_permutation. rewrite Hlpxn. exact Hperm.
Qed.

(** A physical row with fewer turns than the normalised rows raises
    [IndexError]: the index array reaches every turn of the normalised
    rows. *)
Theorem angular_sort_short_physical_row (tbt_triang : record R)
    (nc_tbt_triang : nc_record R) (xs pxs xn pxn : list R) :
  row0 (x tbt_triang) = Ret xs ->
  row0 (px tbt_triang) = Ret pxs ->
  row0 (x_norm nc_tbt_triang) = Ret xn ->
  row0 (px_norm nc_tbt_triang) = Ret pxn ->
  length pxn = length xn ->
  (exists idx, np_argsort (angles xn pxn) = Ret idx /\ is_argsort (angles xn pxn) idx) ->
  (length xs < length xn)%nat \/ (length pxs < length xn)%nat ->
  sort_stable_boundary_coordinates np_argsort tbt_triang nc_tbt_triang = Raise IndexError.
Proof.
  intros Hx Hpx Hxn Hpxn Hlpxn (idx & Hsort & Hperm & _) Hshort.
  rewrite angles_length in Hperm by exact Hlpxn.
  assert (Hreach : forall a : list R, (length a < length xn)%nat ->
                                      np_take a idx = Raise IndexError).
  { intros a Ha. apply np_take_out_of_range. exists (length a). split; [|lia].
    apply (Permutation_in _ (Permutation_sym Hperm)). apply in_seq. lia. }
  unfold sort_stable_boundary_coordinates.
  rewrite Hx, Hpx, Hxn, Hpxn. cbn [obind].
  unfold np_complex. rewrite Hlpxn, Nat.eqb_refl. cbn [obind].
  fold (angles xn pxn). rewrite Hsort. cbn [obind].
  destruct (Nat.lt_ge_cases (length xs) (length xn)) as [Hxs|Hxs].
  - rewrite (Hreach xs Hxs). reflexivity.
  - destruct Hshort as [Hs|Hs]; [lia|].
    rewrite (np_take_in_range 0 xs idx).
    + cbn [obind]. rewrite (Hreach pxs Hs). reflexivity.
    + pose proof (permutation_in_range _ _ Hperm) as Hrange.
      eapply Forall_impl; [exact Hrange|]. intros i Hi. cbn beta in Hi. lia.
Qed.

End AngularSortMore.

(** ** numpy's quicksort on short sorted input *)

Section QuicksortSmall.

Import Cplx AngularSort NumpySort.

Variable lt : nat -> nat -> bool.
Variable n : nat.

(** Every key is at least its predecessor. *)
Hypothesis Hsorted : forall i, (S i < n)%nat -> lt (S i) i = false.

Lemma rd_seq (p : Z) : (0 <= p < Z.of_nat n)%Z -> rd (seq 0 n) p = Z.to_nat p.
Proof. intros Hp. unfold rd. rewrite seq_nth by lia. reflexivity. Qed.

Lemma wr_seq_same (p : Z) :
  (0 <= p < Z.of_nat n)%Z -> wr (seq 0 n) p (Z.to_nat p) = seq 0 n.
Proof.
  intros Hp. unfold wr. apply list_insert_id. rewrite lookup_seq_lt by lia. reflexivity.
Qed.

(** On such keys the insertion sort moves nothing. *)
Lemma insertion_sort_sorted (fuel : nat) :
  forall pi : Z,
    (1 <= pi)%Z ->
    (Z.to_nat (Z.of_nat n - pi) < fuel)%nat ->
    insertion_sort lt fuel (seq 0 n) 0 pi (Z.of_nat n - 1) = Some (seq 0 n).
Proof.
  induction fuel as [|fuel IH]; intros pi Hpi Hfuel; [lia|].
  cbn [insertion_sort].
  destruct (Z.leb_spec pi (Z.of_nat n - 1)) as [Hin|Hout]; [|reflexivity].
  rewrite length_seq. cbn [insert_down].
  replace (0 <? pi)%Z with true by (symmetry; apply Z.ltb_lt; lia).
  rewrite (rd_seq pi), (rd_seq (pi - 1)) by lia.
  replace (Z.to_nat pi) with (S (Z.to_nat (pi - 1))) at 1 by lia.
  rewrite Hsorted by lia. cbn [andb].
  replace (S (Z.to_nat (pi - 1))) with (Z.to_nat pi) by lia.
  rewrite wr_seq_same by lia.
  apply IH; lia.
Qed.

(** Up to 17 keys there is nothing to partition, and sorted keys come
    back in their order, the equal ones included. *)
Lemma aquicksort_small_sorted :
  (n <= 17)%nat -> aquicksort lt n = Some (seq 0 n).
Proof.
  intros Hn. unfold aquicksort. cbn [sort_loop].
  replace (Z.log2 (Z.of_nat n) * 2 <? 0)%Z with false
    by (symmetry; apply Z.ltb_ge; pose proof (Z.log2_nonneg (Z.of_nat n)); lia).
  rewrite length_seq. cbn [partition_phase].
  replace (SMALL_QUICKSORT <? Z.of_nat n - 1 - 0)%Z with false
    by (symmetry; apply Z.ltb_ge; unfold SMALL_QUICKSORT; lia).
  rewrite length_seq.
  rewrite (insertion_sort_sorted (S n) (0 + 1)%Z) by lia. reflexivity.
Qed.

End QuicksortSmall.

Section AngularSortSmall.

Import Cplx AngularSort.

Local Open Scope R_scope.

Lemma sorted_adjacent (v : list R) :
  Sorted Rle v ->
  forall i, (S i < length v)%nat -> nth i v 0 <= nth (S i) v 0.
Proof.
  induction 1 as [|a v Hs IH Hhd]; intros i Hi; [cbn in Hi; lia|].
  destruct i as [|i].
  - destruct Hhd as [|b v Hab]; [cbn in Hi; lia|]. exact Hab.
  - cbn [nth]. apply IH. cbn [length] in Hi. lia.
Qed.

Lemma np_argsort_small_sorted (v : list R) :
  (length v <= 17)%nat ->
  Sorted Rle v ->
  NumpySort.np_argsort v = Ret (seq 0 (length v)).
Proof.
  intros Hlen Hs. unfold NumpySort.np_argsort.
  rewrite aquicksort_small_sorted; [reflexivity| |exact Hlen].
  intros i Hi. apply Rltb_false. apply sorted_adjacent; assumption.
Qed.

(** With numpy's scalar quicksort and at most 17 turns, an input whose
    angles are already in non-decreasing order comes back unchanged,
    samples of equal angle included. *)
Theorem quicksort_fixes_short_sorted_input (tbt_triang : record R)
    (nc_tbt_triang : nc_record R) (xs pxs xn pxn : list R) :
  row0 (x tbt_triang) = Ret xs ->
  row0 (px tbt_triang) = Ret pxs ->
  row0 (x_norm nc_tbt_triang) = Ret xn ->
  row0 (px_norm nc_tbt_triang) = Ret pxn ->
  length xs = length xn ->
  length pxs = length xn ->
  length pxn = length xn ->
  (length xn <= 17)%nat ->
  Sorted Rle (angles xn pxn) ->
  sort_stable_boundary_coordinates NumpySort.np_argsort tbt_triang nc_tbt_triang
  = Ret (mkSorted xs pxs xn pxn).
Proof.
  intros Hx Hpx Hxn Hpxn Hlx Hlpx Hlpxn Hsmall Hs.
  pose proof (angles_length xn pxn Hlpxn) as Hla.
  rewrite (sort_stable_boundary_coordinates_unfold NumpySort.np_argsort
             _ _ xs pxs xn pxn (seq 0 (length xn)));
    try assumption; try reflexivity.
  - rewrite <- Hlx at 1. rewrite <- Hlpx at 1. rewrite <- Hlpxn at 2.
    rewrite !map_nth_seq. reflexivity.
  - rewrite <- Hla. apply np_argsort_small_sorted; [rewrite Hla; exact Hsmall|exact Hs].
Qed.

End AngularSortSmall.

(** *** More angular sort tests *)

Section AngularSortMoreTests.

Import Cplx AngularSort MoreRecords.

Local Open Scope R_scope.

Lemma three_angles_contract :
  exists idx,
    NumpySort.np_argsort (angles [-1; 1; 0] [0; 0; 1]) = Ret idx /\
    is_argsort (angles [-1; 1; 0] [0; 0; 1]) idx.
Proof.
  exists [1; 2; 0]%nat. rewrite three_angles.
  split; [apply quicksort_of_three_angles|]. split.
  - apply (bool_decide_unpack _). vm_compute. reflexivity.
  - pose proof PI_RGT_0 as Hpi. cbn [map nth]. repeat constructor; lra.
Qed.

(** Four physical turns against three normalised ones: the fourth
    physical turn is dropped. *)
Lemma angular_sort_drops_extra_turns_witness :
  exists out : sorted_coordinates,
    sort_stable_boundary_coordinates NumpySort.np_argsort long_tbt three_nc = Ret out /\
    Permutation (x_triang out) [10; 20; 30] /\
    Permutation (px_triang out) [1; 2; 3] /\
    Permutation (x_norm_triang out) [-1; 1; 0] /\
    Permutation (px_norm_triang out) [0; 0; 1].
Proof.
  apply (angular_sort_drops_extra_turns NumpySort.np_argsort long_tbt three_nc
           [10; 20; 30; 40] [1; 2; 3; 4] [-1; 1; 0] [0; 0; 1]);
    try reflexivity; [cbn; lia | cbn; lia | apply three_angles_contract].
Defined.

(** Two physical turns against three normalised ones. *)
Lemma angular_sort_short_physical_row_witness :
  sort_stable_boundary_coordinates NumpySort.np_argsort short_tbt three_nc
  = Raise IndexError.
Proof.
  apply (angular_sort_short_physical_row NumpySort.np_argsort short_tbt three_nc
           [10; 20] [1; 2] [-1; 1; 0] [0; 0; 1]);
    try reflexivity; [apply three_angles_contract | left; cbn; lia].
Defined.

Lemma tie_angles : angles [1; 2; 0] [0; 0; 1] = [0; 0; PI / 2].
Proof.
  unfold angles. cbn [zip_with map].
  rewrite (np_angle_pos_axis 1), (np_angle_pos_axis 2), np_angle_up_axis by lra.
  reflexivity.
Qed.

(** Three turns sorted by angle, the first two at the same angle. *)
Lemma quicksort_fixes_short_sorted_input_witness :
  sort_stable_boundary_coordinates NumpySort.np_argsort three_tbt tie_nc
  = Ret (mkSorted [10; 20; 30] [1; 2; 3] [1; 2; 0] [0; 0; 1]).
Proof.
  apply (quicksort_fixes_short_sorted_input three_tbt tie_nc
           [10; 20; 30] [1; 2; 3] [1; 2; 0] [0; 0; 1]);
    try reflexivity; [cbn; lia|].
  rewrite tie_angles. pose proof PI_RGT_0 as Hpi. repeat constructor; lra.
Defined.

End AngularSortMoreTests.

(** ** More on the fixed points *)

Section FixedPointMore.

Import Cplx FixedPoints MoreRecords.

Local Open Scope R_scope.

(** A record without any turn raises [ValueError]: there is no largest
    amplitude of nothing. *)
Theorem no_turn_no_fixed_point (tbt_triang : record R) (nc_tbt_triang : nc_record R)
    (threshold : R) (xs pxs : list R) :
  row0 (x_norm nc_tbt_triang) = Ret [] ->
  row0 (px_norm nc_tbt_triang) = Ret [] ->
  row0 (x tbt_triang) = Ret xs ->
  row0 (px tbt_triang) = Ret pxs ->
  find_fixed_points tbt_triang nc_tbt_triang threshold = Raise ValueError.
Proof.
  intros Hxn Hpxn Hx Hpx. unfold find_fixed_points.
  rewrite Hxn, Hpxn, Hx, Hpx. cbn [obind np_complex length Nat.eqb].
  unfold np_complex. destruct (length xs =? length pxs)%nat; [reflexivity|].
  destruct xs as [|a [|a' xs]], pxs as [|b [|b' pxs]]; reflexivity.
Qed.

(** The fixed points when the two masks select nothing. *)
Lemma fixed_points_without_disks (tbt_triang : record R) (nc_tbt_triang : nc_record R)
    (threshold : R) (xs pxs xn pxn : list R) :
  row0 (x tbt_triang) = Ret xs ->
  row0 (px tbt_triang) = Ret pxs ->
  row0 (x_norm nc_tbt_triang) = Ret xn ->
  row0 (px_norm nc_tbt_triang) = Ret pxn ->
  length xs = length xn ->
  length pxs = length xn ->
  length pxn = length xn ->
  xn <> [] ->
  (forall i z1 turn,
     zip_with mkC xn pxn !! i = Some z1 ->
     Forall (fun m => m = false)
            (search_mask (zip_with mkC xn pxn) z1 turn threshold)) ->
  exists (i1 : nat) (z1 p1 z0 p0 : complex),
    np_argmax (map Cabs (zip_with mkC xn pxn)) = Ret i1 /\
    zip_with mkC xn pxn !! i1 = Some z1 /\
    zip_with mkC xs pxs !! i1 = Some p1 /\
    zip_with mkC xn pxn !! 0%nat = Some z0 /\
    zip_with mkC xs pxs !! 0%nat = Some p0 /\
    find_fixed_points tbt_triang nc_tbt_triang threshold =
    Ret (mkFixedPoints [re z1; re z0; re z0] [im z1; im z0; im z0]
                       [re p1; re p0; re p0] [im p1; im p0; im p0]).
Proof.
  intros Hx Hpx Hxn Hpxn Hlx Hlpx Hlpxn Hne Hmask.
  destruct (find_fixed_points_run tbt_triang nc_tbt_triang threshold xs pxs xn pxn
              Hx Hpx Hxn Hpxn Hlx Hlpx Hlpxn Hne)
    as (i1 & i2 & i3 & z1 & z2 & z3 & p1 & p2 & p3 &
        Hi1 & Hz1 & Hi2 & Hz2 & Hi3 & Hz3 & Hp1 & Hp2 & Hp3 & Hrun).
  apply (np_argmax_of_empty_mask _ _ _ (Hmask i1 z1 plus_120 Hz1)) in Hi2. subst i2.
  apply (np_argmax_of_empty_mask _ _ _ (Hmask i1 z1 minus_120 Hz1)) in Hi3. subst i3.
  rewrite Hz2 in Hz3. injection Hz3 as <-. rewrite Hp2 in Hp3. injection Hp3 as <-.
  exists i1, z1, p1, z2, p2. auto 10.
Qed.


(** A particle at rest at the origin of the normalised phase space:
    whatever the threshold, all three fixed points are the sample of
    turn 0. *)
Theorem origin_record_finds_turn_0_thrice (tbt_triang : record R)
    (nc_tbt_triang : nc_record R) (threshold : R) (xs pxs xn pxn : list R) :
  row0 (x tbt_triang) = Ret xs ->
  row0 (px tbt_triang) = Ret pxs ->
  row0 (x_norm nc_tbt_triang) = Ret xn ->
  row0 (px_norm nc_tbt_triang) = Ret pxn ->
  length xs = length xn ->
  length pxs = length xn ->
  length pxn = length xn ->
  xn <> [] ->
  Forall (fun v => v = 0) xn ->
  Forall (fun v => v = 0) pxn ->
  exists x0 px0 : R,
    xs !! 0%nat = Some x0 /\ pxs !! 0%nat = Some px0 /\
    find_fixed_points tbt_triang nc_tbt_triang threshold =
    Ret (mkFixedPoints [0; 0; 0] [0; 0; 0] [x0; x0; x0] [px0; px0; px0]).
Proof.
  intros Hx Hpx Hxn Hpxn Hlx Hlpx Hlpxn Hne Hxz Hpxz.
  assert (Hzero : forall j z, zip_with mkC xn pxn !! j = Some z -> z = mkC 0 0).
  { intros j z Hz. apply lookup_zip_with_Some in Hz as (a & b & -> & Ha & Hb).
    rewrite Forall_lookup in Hxz, Hpxz.
    rewrite (Hxz j a Ha), (Hpxz j b Hb). reflexivity. }
  assert (Habs0 : Cabs (mkC 0 0) = 0).
  { apply Cabs_of_sqr; [lra|]. cbn [re im]. ring. }
  destruct (fixed_points_without_disks tbt_triang nc_tbt_triang threshold xs pxs xn pxn
              Hx Hpx Hxn Hpxn Hlx Hlpx Hlpxn Hne)
    as (i1 & z1 & p1 & z0 & p0 & Hi1 & Hz1 & Hp1 & Hz0 & Hp0 & Hrun).
  { intros i z1 turn Hz1. rewrite (Hzero i z1 Hz1).
    unfold search_mask. apply Forall_fmap, Forall_forall.
    intros z _. cbn beta. apply Rltb_false. rewrite Habs0, Rmult_0_r.
    apply Cabs_nonneg. }
  assert (Hfirst : i1 = 0%nat).
  { destruct (zip_with mkC xn pxn) as [|z z'] eqn:Hz; [discriminate|].
    cbn [map] in Hi1. rewrite np_argmax_first in Hi1; [congruence|].
    apply Forall_fmap, Forall_lookup. intros j u Hu. unfold compose.
    rewrite (Hzero 0%nat z eq_refl), (Hzero (S j) u Hu). lra. }
  subst i1. rewrite Hz0 in Hz1. injection Hz1 as <-.
  rewrite Hp0 in Hp1. injection Hp1 as <-.
  rewrite (Hzero 0%nat z0 Hz0) in Hrun. cbn [re im] in Hrun.
  apply lookup_zip_with_Some in Hp0 as (c & d & -> & Hc & Hd).
  exists c, d. split; [exact Hc|]. split; [exact Hd|exact Hrun].
Qed.

End FixedPointMore.

(** ** The fixed points do not depend on the units of the normalised
    coordinates *)

Section FixedPointScale.

Import Cplx FixedPoints MoreRecords.

Local Open Scope R_scope.

Variable s : R.
Hypothesis Hs : 0 < s.

Lemma Cabs_scale (z : complex) : Cabs (Cscale s z) = s * Cabs z.
Proof.
  apply Cabs_of_sqr.
  - apply Rmult_le_pos; [lra|apply Cabs_nonneg].
  - replace (s * Cabs z * (s * Cabs z)) with (s * s * (Cabs z * Cabs z)) by ring.
    rewrite Cabs_sqr. cbn [Cscale re im]. ring.
Qed.

Lemma Rltb_scale (a b : R) : Rltb (s * a) (s * b) = Rltb a b.
Proof.
  destruct (Rltb a b) eqn:E.
  - apply Rltb_true in E. apply Rltb_true. nra.
  - apply Rltb_false in E. apply Rltb_false. nra.
Qed.

Lemma zip_scale (a b : list R) :
  zip_with mkC (map (Rmult s) a) (map (Rmult s) b) = map (Cscale s) (zip_with mkC a b).
Proof.
  revert b. induction a as [|u a IH]; intros [|v b]; cbn [map zip_with]; try reflexivity.
  rewrite IH. reflexivity.
Qed.

Lemma np_complex_scale (a b : list R) :
  np_complex (map (Rmult s) a) (map (Rmult s) b)
  = obind (np_complex a b) (fun z => Ret (map (Cscale s) z)).
Proof.
  unfold np_complex. rewrite !length_map.
  destruct (length a =? length b)%nat; [cbn [obind]; rewrite zip_scale; reflexivity|].
  destruct a as [|a0 [|a1 a]], b as [|b0 [|b1 b]];
    cbn [map obind]; try reflexivity; rewrite ?map_map; reflexivity.
Qed.

Lemma argmax_from_scale (a : list R) :
  forall (best : R) (ibest i : nat),
    argmax_from (s * best) ibest i (map (Rmult s) a) = argmax_from best ibest i a.
Proof.
  induction a as [|v a IH]; intros best ibest i; [reflexivity|].
  cbn [map argmax_from]. rewrite Rltb_scale. destruct (Rltb best v); apply IH.
Qed.

Lemma np_argmax_scale (a : list R) : np_argmax (map (Rmult s) a) = np_argmax a.
Proof.
  destruct a as [|v a]; [reflexivity|]. cbn [map np_argmax]. rewrite argmax_from_scale.
  reflexivity.
Qed.

Lemma search_mask_scale (z : list complex) (z1 turn : complex) (t : R) :
  search_mask (map (Cscale s) z) (Cscale s z1) turn t = search_mask z z1 turn t.
Proof.
  unfold search_mask. rewrite map_map. apply map_ext. intros w.
  replace (Csub (Cscale s w) (Cmul (Cscale s z1) (Cexp turn)))
    with (Cscale s (Csub w (Cmul z1 (Cexp turn))))
    by (unfold Cscale, Csub, Cmul; cbn [re im]; f_equal; ring).
  rewrite !Cabs_scale.
  replace (t * (s * Cabs z1)) with (s * (t * Cabs z1)) by ring.
  apply Rltb_scale.
Qed.

Lemma masked_scale (r : list R) (m : list bool) :
  zip_with mul_mask (map (Rmult s) r) m = map (Rmult s) (zip_with mul_mask r m).
Proof.
  revert m. induction r as [|v r IH]; intros [|b m]; cbn [map zip_with]; try reflexivity.
  rewrite IH. f_equal. destruct b; cbn [mul_mask]; ring.
Qed.

Lemma np_getitem_map {A B : Type} (f : A -> B) (a : list A) (i : Z) :
  np_getitem (map f a) i = obind (np_getitem a i) (fun v => Ret (f v)).
Proof.
  unfold np_getitem. rewrite length_map.
  destruct (0 <=? i)%Z.
  - rewrite list_lookup_fmap. destruct (a !! Z.to_nat i); reflexivity.
  - destruct (- Z.of_nat (length a) <=? i)%Z; [|reflexivity].
    rewrite list_lookup_fmap. destruct (a !! _); reflexivity.
Qed.

Lemma np_take_map {A B : Type} (f : A -> B) (a : list A) (idx : list nat) :
  np_take (map f a) idx = obind (np_take a idx) (fun l => Ret (map f l)).
Proof.
  induction idx as [|i idx IH]; [reflexivity|].
  cbn [np_take]. rewrite list_lookup_fmap. destruct (a !! i) as [v|]; [|reflexivity].
  cbn [fmap option_fmap option_map]. rewrite IH.
  destruct (np_take a idx); reflexivity.
Qed.

Lemma row0_map {A B : Type} (f : A -> B) (a : list (list A)) :
  row0 (map (map f) a) = obind (row0 a) (fun r => Ret (map f r)).
Proof. destruct a; reflexivity. Qed.

(** Over exact real arithmetic, multiplying every normalised
    coordinate by a positive factor [s] changes nothing in what the
    function selects: the outcome is the same, errors included, with
    the normalised fixed points multiplied by [s] and the physical
    fixed points unchanged.  (With rounded numbers two amplitudes that
    differ in the last place can round to one value after the
    multiplication, and the first maximum can move.) *)
Theorem fixed_points_scale_with_units (tbt_triang : record R)
    (nc_tbt_triang : nc_record R) (threshold : R) :
  find_fixed_points tbt_triang (scale_nc s nc_tbt_triang) threshold
  = obind (find_fixed_points tbt_triang nc_tbt_triang threshold)
      (fun fp => Ret (mkFixedPoints (map (Rmult s) (x_norm_fp fp))
                                    (map (Rmult s) (px_norm_fp fp))
                                    (x_fp fp) (px_fp fp))).
Proof.
  unfold find_fixed_points, scale_nc. cbn [x_norm px_norm].
  rewrite !row0_map.
  destruct (row0 (x_norm nc_tbt_triang)) as [xn| |]; cbn [obind]; try reflexivity.
  destruct (row0 (px_norm nc_tbt_triang)) as [pxn| |]; cbn [obind]; try reflexivity.
  rewrite np_complex_scale.
  destruct (np_complex xn pxn) as [z| |]; cbn [obind]; try reflexivity.
  destruct (row0 (x tbt_triang)) as [xs| |]; cbn [obind]; try reflexivity.
  destruct (row0 (px tbt_triang)) as [pxs| |]; cbn [obind]; try reflexivity.
  destruct (np_complex xs pxs) as [zp| |]; cbn [obind]; try reflexivity.
  assert (Hr : map Cabs (map (Cscale s) z) = map (Rmult s) (map Cabs z)).
  { rewrite !map_map. apply map_ext. intros w. apply Cabs_scale. }
  rewrite Hr, np_argmax_scale.
  destruct (np_argmax (map Cabs z)) as [i1| |]; cbn [obind]; try reflexivity.
  rewrite np_getitem_map.
  destruct (np_getitem z (Z.of_nat i1)) as [z1| |]; cbn [obind]; try reflexivity.
  rewrite !search_mask_scale, !masked_scale, !np_argmax_scale.
  destruct (np_argmax (zip_with mul_mask (map Cabs z) (search_mask z z1 plus_120 threshold)))
    as [i2| |]; cbn [obind]; try reflexivity.
  destruct (np_argmax (zip_with mul_mask (map Cabs z) (search_mask z z1 minus_120 threshold)))
    as [i3| |]; cbn [obind]; try reflexivity.
  rewrite np_take_map.
  destruct (np_take z [i1; i2; i3]) as [zn| |]; cbn [obind]; try reflexivity.
  destruct (np_take zp [i1; i2; i3]) as [zq| |]; cbn [obind]; try reflexivity.
  cbn [x_norm_fp px_norm_fp x_fp px_fp]. rewrite !map_map. reflexivity.
Qed.

End FixedPointScale.

(** ** The strands drawn by [plot_phase_space] *)

Section PlotFacts.

Import PhaseSpacePlot.

Context {F : Type}.

(** Entry [q] of [l[wait::step]] is entry [wait + step * q] of [l]. *)
Lemma slice_countdown_lookup (step : nat) (l : list F) :
  (1 <= step)%nat ->
  forall wait q, slice_countdown step wait l !! q = l !! (wait + step * q)%nat.
Proof.
  intros Hstep. induction l as [|v l IH]; intros wait q; [reflexivity|].
  cbn [slice_countdown]. destruct wait as [|wait].
  - destruct q as [|q].
    + rewrite Nat.mul_0_r. reflexivity.
    + cbn [lookup list_lookup plus]. rewrite IH.
      replace (step * S q)%nat with (S (step - 1 + step * q)) by lia. reflexivity.
  - rewrite IH. reflexivity.
Qed.

Lemma select_row_length (m : list bool) :
  forall r r' : list F,
    length r = length m -> length r' = length m ->
    length (select_row r m) = length (select_row r' m).
Proof.
  induction m as [|b m IH]; intros [|v r] [|v' r'] Hr Hr'; try discriminate;
    [reflexivity|].
  cbn [select_row]. injection Hr as Hr. injection Hr' as Hr'.
  destruct b; cbn [length]; rewrite (IH r r' Hr Hr'); reflexivity.
Qed.

(** Arrays filtered by one mask give as many entries. *)
Lemma np_boolean_mask_length (mask : list (list bool)) :
  forall (a b : list (list F)) (la lb : list F),
    np_boolean_mask a mask = Ret la ->
    np_boolean_mask b mask = Ret lb ->
    length la = length lb.
Proof.
  induction mask as [|m mask IH]; intros [|r a] [|r' b] la lb Ha Hb;
    cbn [np_boolean_mask] in Ha, Hb; try discriminate.
  - injection Ha as <-. injection Hb as <-. reflexivity.
  - destruct (Nat.eqb_spec (length r) (length m)) as [Hr|]; [|discriminate].
    destruct (Nat.eqb_spec (length r') (length m)) as [Hr'|]; [|discriminate].
    destruct (np_boolean_mask a mask) as [ra| |] eqn:Ea; try discriminate.
    destruct (np_boolean_mask b mask) as [rb| |] eqn:Eb; try discriminate.
    cbn [obind] in Ha, Hb. injection Ha as <-. injection Hb as <-.
    rewrite !length_app, (select_row_length m r r' Hr Hr'), (IH a b ra rb Ea Eb).
    reflexivity.
Qed.

(** The three strands take the alive samples apart and lose none:
    alive sample [j] is entry [j / 3] of strand [j mod 3], in both
    coordinates of both phase spaces, and the two data rows of every
    strand have one length. *)
Theorem strands_take_alive_samples_apart (state : list (list Z))
    (rec_sep : record F) (nc_sep : nc_record F) (cs : list (curve F * curve F)) :
  separatrix_strands state rec_sep nc_sep = Ret cs ->
  exists gx gpx nx npx : list F,
    np_boolean_mask (x rec_sep) (alive_mask state) = Ret gx /\
    np_boolean_mask (px rec_sep) (alive_mask state) = Ret gpx /\
    np_boolean_mask (x_norm nc_sep) (alive_mask state) = Ret nx /\
    np_boolean_mask (px_norm nc_sep) (alive_mask state) = Ret npx /\
    length cs = 3%nat /\
    (forall j : nat,
       exists g n : curve F,
         cs !! (j mod 3)%nat = Some (g, n) /\
         xdata g !! (j / 3)%nat = gx !! j /\
         ydata g !! (j / 3)%nat = gpx !! j /\
         xdata n !! (j / 3)%nat = nx !! j /\
         ydata n !! (j / 3)%nat = npx !! j) /\
    (forall g n, In (g, n) cs ->
       length (xdata g) = length (ydata g) /\ length (xdata n) = length (ydata n)).
Proof.
  unfold separatrix_strands. cbn [seq strands_for]. unfold strand_pair.
  destruct (np_boolean_mask (x rec_sep) (alive_mask state)) as [gx| |] eqn:Egx;
    try discriminate.
  destruct (np_boolean_mask (px rec_sep) (alive_mask state)) as [gpx| |] eqn:Egpx;
    try discriminate.
  destruct (np_boolean_mask (x_norm nc_sep) (alive_mask state)) as [nx| |] eqn:Enx;
    try discriminate.
  destruct (np_boolean_mask (px_norm nc_sep) (alive_mask state)) as [npx| |] eqn:Enpx;
    try discriminate.
  cbn [obind]. intros [= <-].
  exists gx, gpx, nx, npx. repeat (split; [reflexivity|]).
  pose proof (np_boolean_mask_length _ _ _ _ _ Egx Egpx) as Hg.
  pose proof (np_boolean_mask_length _ _ _ _ _ Enx Enpx) as Hn.
  split.
  - intros j.
    pose proof (Nat.div_mod_eq j 3) as Hj.
    pose proof (Nat.mod_upper_bound j 3 ltac:(lia)) as Hm.
    assert (Hlook : forall (l : list F) ii, ii = (j mod 3)%nat ->
              np_slice_from ii 3 l !! (j / 3)%nat = l !! j).
    { intros l ii ->. unfold np_slice_from.
      rewrite slice_countdown_lookup by lia. f_equal. lia. }
    destruct (j mod 3)%nat as [|[|[|r]]] eqn:Er; [| | |lia];
      eexists _, _; (split; [reflexivity|]); cbn [xdata ydata];
      rewrite !Hlook by reflexivity; auto.
  - assert (Hlen : forall (l l' : list F) ii, length l = length l' ->
              length (np_slice_from ii 3 l) = length (np_slice_from ii 3 l')).
    { intros l l' ii Hll. unfold np_slice_from. generalize ii as wait.
      revert l' Hll. induction l as [|v l IH]; intros [|v' l'] Hll wait;
        try discriminate; [reflexivity|].
      cbn [slice_countdown]. injection Hll as Hll.
      destruct wait; cbn [length]; rewrite (IH l' Hll); reflexivity. }
    intros g n [Hin|[Hin|[Hin|[]]]]; injection Hin as <- <-; cbn [xdata ydata];
      split; apply Hlen; assumption.
Qed.

End PlotFacts.

(** *** Plot and fixed-point tests *)

Section MoreTests.

Import Cplx FixedPoints MoreRecords PhaseSpacePlot.

(** Eight turns of which turns 2 and 5 are lost: the alive samples are
    the turns 0, 1, 3, 4, 6, 7, and the strands hold the turns 0 and 4,
    1 and 6, 3 and 7. *)
Lemma strands_take_alive_samples_apart_witness :
  exists cs : list (curve Q * curve Q),
    separatrix_strands eight_state eight_rec eight_nc = Ret cs /\
    np_boolean_mask (x eight_rec) (alive_mask eight_state)
      = Ret [0; 1; 3; 4; 6; 7]%Q /\
    map (fun c => xdata (fst c)) cs = [[0; 4]; [1; 6]; [3; 7]]%Q /\
    length cs = 3%nat /\
    (forall g n, In (g, n) cs ->
       length (xdata g) = length (ydata g) /\ length (xdata n) = length (ydata n)).
Proof.
  eexists. split; [vm_compute; reflexivity|].
  split; [reflexivity|]. split; [reflexivity|].
  destruct (strands_take_alive_samples_apart eight_state eight_rec eight_nc _
              ltac:(vm_compute; reflexivity))
    as (gx & gpx & nx & npx & _ & _ & _ & _ & Hlen & _ & Hpair).
  split; [exact Hlen|exact Hpair].
Defined.

Local Open Scope R_scope.

Lemma no_turn_no_fixed_point_witness :
  find_fixed_points empty_tbt empty_nc (2 / 10) = Raise ValueError.
Proof.
  apply (no_turn_no_fixed_point empty_tbt empty_nc (2 / 10) [] []); reflexivity.
Defined.


Lemma origin_record_finds_turn_0_thrice_witness :
  find_fixed_points lonely_tbt origin_nc (2 / 10)
  = Ret (mkFixedPoints [0; 0; 0] [0; 0; 0] [5; 5; 5] [50; 50; 50]).
Proof.
  destruct (origin_record_finds_turn_0_thrice lonely_tbt origin_nc (2 / 10)
              [5; 6] [50; 60] [0; 0] [0; 0])
    as (x0 & px0 & Hx0 & Hpx0 & Hrun);
    try reflexivity; [discriminate | repeat constructor | repeat constructor |].
  injection Hx0 as <-. injection Hpx0 as <-. exact Hrun.
Defined.

(** The lonely record in units twice as small. *)
Lemma fixed_points_scale_with_units_witness :
  find_fixed_points lonely_tbt (scale_nc 2 lonely_nc) (2 / 10)
  = obind (find_fixed_points lonely_tbt lonely_nc (2 / 10))
      (fun fp => Ret (mkFixedPoints (map (Rmult 2) (x_norm_fp fp))
                                    (map (Rmult 2) (px_norm_fp fp))
                                    (x_fp fp) (px_fp fp))).
Proof.
  apply (fixed_points_scale_with_units 2); lra.
Defined.

End MoreTests.
